(** * establishCursors: scatter-gather cursor establishment on shards

    A shallow embedding of [mongo::establishCursors]
    (mongo/s/query/establish_cursors.cpp) and the properties of its
    collection loop, its drain loop and its killCursors clean-up.

    The function talks to three collaborators whose code is elsewhere:
    [AsyncRequestsSender] (the dispatch engine), [executor::TaskExecutor]
    and the BSON layer ([CursorResponse::parseFromBSON],
    [KillCursorsRequest::toBSON]).  They are parameters of the development,
    gathered in the class [Collaborators].  C++ exceptions, the mutation of
    the local vector [remoteCursors] and the calls made on the collaborators
    are threaded through a state-and-exception monad whose state survives a
    throw, as the C++ locals do. *)

From Stdlib Require Import String List ZArith Bool Arith Lia Permutation.
Import ListNotations.

Set Implicit Arguments.

(** ** Plain data *)

Definition ShardId := string.
Definition CursorId := Z.

Record HostAndPort := mkHostAndPort { host : string; port : Z }.

Record NamespaceString := mkNamespaceString { ns_db : string; ns_coll : string }.

(** [ErrorCodes::Error] is an enumeration of integers. *)
Definition ErrorCode := Z.

Record Status := mkStatus { code : ErrorCode; reason : string }.

(** [StatusWith<T>]: a value, or a non-OK status. *)
Inductive StatusWith (T : Type) : Type :=
| SWValue (v : T)
| SWStatus (s : Status).
Arguments SWStatus {T} s.

Definition isOK {T} (sw : StatusWith T) : bool :=
  match sw with SWValue _ => true | SWStatus _ => false end.

(** A [DBException] carries the status it was thrown with; [ex.code()] is
    that status' code. *)
Record DBException := mkDBException { toStatus : Status }.

Definition ex_code (ex : DBException) : ErrorCode := code (toStatus ex).

(** ** The monad: state, C++ exceptions, undefined behaviour

    [Throws] is a C++ exception in flight, [Undefined] the dereference of a
    disengaged [boost::optional], [Diverged] a loop that ran past its bound.
    The state is returned in every case: a [catch] block sees the locals as
    the [try] block left them. *)

Inductive Outcome (A : Type) : Type :=
| Normal (a : A)
| Throws (ex : DBException)
| Undefined
| Diverged.
Arguments Throws {A} ex.
Arguments Undefined {A}.
Arguments Diverged {A}.

Definition M (St A : Type) : Type := St -> Outcome A * St.

Definition ret {St A} (a : A) : M St A := fun st => (Normal a, st).

Definition bind {St A B} (m : M St A) (k : A -> M St B) : M St B :=
  fun st =>
    match m st with
    | (Normal a, st') => k a st'
    | (Throws ex, st') => (Throws ex, st')
    | (Undefined, st') => (Undefined, st')
    | (Diverged, st') => (Diverged, st')
    end.

Definition throw {St A} (ex : DBException) : M St A := fun st => (Throws ex, st).

Definition undefined {St A} : M St A := fun st => (Undefined, st).

(** [try { m } catch (const DBException& ex) { h ex }] *)
Definition try_catch {St A} (m : M St A) (h : DBException -> M St A) : M St A :=
  fun st =>
    match m st with
    | (Throws ex, st') => h ex st'
    | r => r
    end.

Definition gets {St A} (f : St -> A) : M St A := fun st => (Normal (f st), st).

Definition modify {St} (f : St -> St) : M St unit := fun st => (Normal tt, f st).

Declare Scope cxx_scope.
Delimit Scope cxx_scope with cxx.
Notation "x <- m ;; k" := (bind m (fun x => k))
  (at level 61, m at next level, right associativity) : cxx_scope.
Notation "m ;; k" := (bind m (fun _ => k))
  (at level 61, right associativity) : cxx_scope.
Local Open Scope cxx_scope.

(** [uassertStatusOK(sw)]: the value, or throw the status. *)
Definition uassertStatusOK {St T} (sw : StatusWith T) : M St T :=
  match sw with
  | SWValue v => ret v
  | SWStatus s => throw (mkDBException s)
  end.

(** [*opt] on a [boost::optional]. *)
Definition deref {St T} (opt : option T) : M St T :=
  match opt with
  | Some v => ret v
  | None => undefined
  end.

(** [std::find(first, last, c) != last] on a list of error codes. *)
Fixpoint std_find_code (l : list ErrorCode) (c : ErrorCode) : bool :=
  match l with
  | [] => false
  | x :: rest => if Z.eqb x c then true else std_find_code rest c
  end.

(** ** Collaborators *)

(** The types the function only passes around. *)
Class ExternalTypes := {
  BSONObj : Type;
  OperationContext : Type;
  ReadPreferenceSetting : Type
}.

Section Data.
Context `{ExternalTypes}.

(** [CursorResponse], the parsed reply of a cursor-establishing command. *)
Record CursorResponse := mkCursorResponse {
  cr_nss : NamespaceString;
  cr_cursorId : CursorId;
  cr_batch : list BSONObj
}.

Definition getCursorId (cr : CursorResponse) : CursorId := cr_cursorId cr.

(** [KillCursorsRequest(nss, {ids...})]. *)
Record KillCursorsRequest := mkKillCursorsRequest {
  kc_nss : NamespaceString;
  kc_cursorIds : list CursorId
}.

Inductive RetryPolicy := kIdempotent | kNotIdempotent | kNoRetry.

(** [executor::RemoteCommandResponse] and [executor::RemoteCommandRequest]. *)
Record RemoteCommandResponse := mkRemoteCommandResponse { data : BSONObj }.

Record RemoteCommandRequest := mkRemoteCommandRequest {
  target : HostAndPort;
  dbname : string;
  cmdObj : BSONObj;
  req_opCtx : OperationContext
}.

(** [AsyncRequestsSender::Request] and [AsyncRequestsSender::Response]. *)
Record Request := mkRequest { rq_shardId : ShardId; rq_cmdObj : BSONObj }.

Record Response := mkResponse {
  shardId : ShardId;
  swResponse : StatusWith RemoteCommandResponse;
  shardHostAndPort : option HostAndPort
}.

Definition CallbackHandle := nat.

(** What one call of [executor->scheduleRemoteCommand] does: it returns a
    [StatusWith<CallbackHandle>], the status telling of a request that was
    refused, or it leaves by an exception, which is what the [catch] around
    the clean-up is there for. *)
Inductive ScheduleOutcome :=
| Scheduled (sw : StatusWith CallbackHandle)
| ScheduleThrew (ex : DBException).

(** [ClusterClientCursorParams::RemoteCursor]. *)
Record RemoteCursor := mkRemoteCursor {
  rc_shardId : ShardId;
  hostAndPort : HostAndPort;
  cursorResponse : CursorResponse
}.

End Data.

(** Modelled from the spec: the operations of the collaborators, whose code
    is elsewhere.  Of the dispatch engine [AsyncRequestsSender] the spec says
    that it offers [hasMore] (here [ars_done], negated), [next] and
    [stopRetrying], that [next] hands over one response envelope per call, a
    failure being the outcome held in the envelope, and that every request
    sent completes: [ars_pending] counts the completions still to come and
    [ars_next_pending] says that [next] consumes one, which is what makes
    [while (!ars.done())] end.  The engine is built on the executor; whatever
    it does to the executor shows in the executor's answers, and the
    properties below hold for all of them.  [kAllRetriableErrors] is the
    table of [RemoteCommandRetryScheduler]. *)
Class Collaborators `{ExternalTypes} := {
  AsyncRequestsSender : Type;
  TaskExecutor : Type;
  parseFromBSON : BSONObj -> StatusWith CursorResponse;
  KillCursorsRequest_toBSON : KillCursorsRequest -> BSONObj;
  kAllRetriableErrors : list ErrorCode;
  AsyncRequestsSender_new :
    OperationContext -> TaskExecutor -> string -> list Request ->
    ReadPreferenceSetting -> RetryPolicy -> AsyncRequestsSender;
  ars_done : AsyncRequestsSender -> bool;
  ars_next : AsyncRequestsSender -> Response * AsyncRequestsSender;
  ars_stopRetrying : AsyncRequestsSender -> AsyncRequestsSender;
  ars_pending : AsyncRequestsSender -> nat;
  ars_next_pending : forall a,
    ars_done a = false -> ars_pending (snd (ars_next a)) < ars_pending a;
  scheduleRemoteCommand :
    TaskExecutor -> RemoteCommandRequest -> ScheduleOutcome * TaskExecutor
}.

Section EstablishCursors.
Context `{Collaborators}.

(** ** The state of a call

    The engine, the executor, the local vector [remoteCursors], and [trace],
    a ghost log of the calls made on the collaborators, oldest first. *)
Inductive Event :=
| EvNext (response : Response)
| EvStopRetrying
| EvSchedule (request : RemoteCommandRequest) (o : ScheduleOutcome).

Record Frame := mkFrame {
  ars : AsyncRequestsSender;
  executor : TaskExecutor;
  remoteCursors : list RemoteCursor;
  trace : list Event
}.

Definition set_ars (a : AsyncRequestsSender) (st : Frame) : Frame :=
  mkFrame a (executor st) (remoteCursors st) (trace st).

Definition set_executor (e : TaskExecutor) (st : Frame) : Frame :=
  mkFrame (ars st) e (remoteCursors st) (trace st).

Definition log (ev : Event) (st : Frame) : Frame :=
  mkFrame (ars st) (executor st) (remoteCursors st) (trace st ++ [ev]).

Definition push_cursor (rc : RemoteCursor) (st : Frame) : Frame :=
  mkFrame (ars st) (executor st) (remoteCursors st ++ [rc]) (trace st).

(** [remoteCursors.emplace_back(shard, host, response)] *)
Definition emplace_back (rc : RemoteCursor) : M Frame unit :=
  modify (push_cursor rc).

(** [ars.next()] *)
Definition next : M Frame Response :=
  fun st =>
    let (response, a) := ars_next (ars st) in
    (Normal response, log (EvNext response) (set_ars a st)).

(** [ars.stopRetrying()] *)
Definition stopRetrying : M Frame unit :=
  modify (fun st => log EvStopRetrying (set_ars (ars_stopRetrying (ars st)) st)).

(** [executor->scheduleRemoteCommand(request, [](...) {})] *)
Definition schedule (request : RemoteCommandRequest)
  : M Frame (StatusWith CallbackHandle) :=
  fun st =>
    let (o, e) := scheduleRemoteCommand (executor st) request in
    let st' := log (EvSchedule request o) (set_executor e st) in
    match o with
    | Scheduled sw => (Normal sw, st')
    | ScheduleThrew ex => (Throws ex, st')
    end.

(** [sw.status_with_transitional_ignore()]: the status is dropped. *)
Definition status_with_transitional_ignore {T} (sw : StatusWith T)
  : M Frame unit := ret tt.

(** [while (!ars.done()) body], at most [fuel] iterations. *)
Fixpoint while_not_done (fuel : nat) (body : M Frame unit) : M Frame unit :=
  fun st =>
    if ars_done (ars st) then (Normal tt, st)
    else
      match fuel with
      | O => (Diverged, st)
      | S fuel' => (body ;; while_not_done fuel' body) st
      end.

(** The loop as the code runs it: the engine's own bound is the fuel. *)
Definition while_ars_not_done (body : M Frame unit) : M Frame unit :=
  fun st => while_not_done (ars_pending (ars st)) body st.

Section Call.
Variable opCtx : OperationContext.
Variable nss : NamespaceString.
Variable allowPartialResults : bool.

(** Lines 76-84, the body of the inner [try]. *)
Definition collect_try : M Frame unit :=
  response <- next ;;
  reply <- uassertStatusOK (swResponse response) ;;
  cursorResponse <- uassertStatusOK (parseFromBSON (data reply)) ;;
  hp <- deref (shardHostAndPort response) ;;
  emplace_back (mkRemoteCursor (shardId response) hp cursorResponse).

(** Lines 85-95, the inner [catch]: [continue], or rethrow. *)
Definition collect_catch (ex : DBException) : M Frame unit :=
  if allowPartialResults && std_find_code kAllRetriableErrors (ex_code ex)
  then ret tt
  else throw ex.

(** Lines 75-95, one iteration of the collection loop. *)
Definition collect_body : M Frame unit :=
  try_catch collect_try collect_catch.

(** Lines 74-97. *)
Definition collect : M Frame (list RemoteCursor) :=
  while_ars_not_done collect_body ;;
  gets remoteCursors.

(** Lines 111-114: the cursor response of a completion, or why there is
    none. *)
Definition parse_response (response : Response) : StatusWith CursorResponse :=
  match swResponse response with
  | SWValue reply => parseFromBSON (data reply)
  | SWStatus s => SWStatus s
  end.

(** Lines 108-120, the body of the drain loop. *)
Definition drain_body : M Frame unit :=
  response <- next ;;
  let swCursorResponse := parse_response response in
  match swCursorResponse with
  | SWValue cursorResponse =>
      hp <- deref (shardHostAndPort response) ;;
      emplace_back (mkRemoteCursor (shardId response) hp cursorResponse)
  | SWStatus _ => ret tt
  end.

(** Lines 125-128: the killCursors request for one established cursor. *)
Definition killCursors_request (remoteCursor : RemoteCursor)
  : RemoteCommandRequest :=
  let cmdObj :=
    KillCursorsRequest_toBSON
      (mkKillCursorsRequest nss [getCursorId (cursorResponse remoteCursor)]) in
  mkRemoteCommandRequest (hostAndPort remoteCursor) (ns_db nss) cmdObj opCtx.

(** Lines 124-137. *)
Fixpoint schedule_killCursors (cursors : list RemoteCursor) : M Frame unit :=
  match cursors with
  | [] => ret tt
  | remoteCursor :: rest =>
      sw <- schedule (killCursors_request remoteCursor) ;;
      status_with_transitional_ignore sw ;;
      schedule_killCursors rest
  end.

(** Lines 102-137, the body of the [try] inside the outer [catch]. *)
Definition cleanup_try : M Frame unit :=
  stopRetrying ;;
  while_ars_not_done drain_body ;;
  cursors <- gets remoteCursors ;;
  schedule_killCursors cursors.

(** Lines 98-143, the outer [catch]: the new error is ignored and the
    original one rethrown. *)
Definition on_error (ex : DBException) : M Frame (list RemoteCursor) :=
  try_catch cleanup_try (fun _ => ret tt) ;;
  throw ex.

(** Lines 71-143. *)
Definition establish : M Frame (list RemoteCursor) :=
  try_catch collect on_error.

End Call.

(** Lines 57-69: the requests, one per remote, and the engine sending them. *)
Definition sender_for (opCtx : OperationContext) (exec : TaskExecutor)
    (nss : NamespaceString) (readPref : ReadPreferenceSetting)
    (remotes : list (ShardId * BSONObj)) : AsyncRequestsSender :=
  let requests := map (fun remote => mkRequest (fst remote) (snd remote)) remotes in
  AsyncRequestsSender_new opCtx exec (ns_db nss) requests readPref kIdempotent.

(** Lines 50-144.  The result comes with the final frame, whose [trace] tells
    what was asked of the engine and of the executor. *)
Definition establishCursors (opCtx : OperationContext) (exec : TaskExecutor)
    (nss : NamespaceString) (readPref : ReadPreferenceSetting)
    (remotes : list (ShardId * BSONObj)) (allowPartialResults : bool)
  : Outcome (list RemoteCursor) * Frame :=
  let sender := sender_for opCtx exec nss readPref remotes in
  establish opCtx nss allowPartialResults (mkFrame sender exec [] []).

End EstablishCursors.

(** ** Notions the properties are stated with *)

Section Notions.
Context `{Collaborators}.

(** The cursor a completion establishes: its response parses and its host is
    known. *)
Definition cursor_of (response : Response) : option RemoteCursor :=
  match parse_response response, shardHostAndPort response with
  | SWValue cr, Some hp => Some (mkRemoteCursor (shardId response) hp cr)
  | _, _ => None
  end.

Definition cursors_of (responses : list Response) : list RemoteCursor :=
  flat_map
    (fun r => match cursor_of r with Some rc => [rc] | None => [] end)
    responses.

(** The failure of a completion: a transport error, or the status its payload
    failed to parse with. *)
Definition failure_of (response : Response) : option Status :=
  match parse_response response with
  | SWValue _ => None
  | SWStatus s => Some s
  end.

(** Membership in the retriable set. *)
Definition isRetriable (c : ErrorCode) : Prop := In c kAllRetriableErrors.

(** A completion the collection loop gets past: it establishes a cursor, or
    it fails retriably while partial results are allowed. *)
Definition collected (allowPartialResults : bool) (response : Response) : Prop :=
  (exists rc, cursor_of response = Some rc) \/
  (exists s, failure_of response = Some s /\
             allowPartialResults = true /\ isRetriable (code s)).

(** A completion that ends the collection loop with an error. *)
Definition fatal (allowPartialResults : bool) (response : Response)
    (s : Status) : Prop :=
  failure_of response = Some s /\
  ~ (allowPartialResults = true /\ isRetriable (code s)).

(** The frame once [ars.next()] has returned. *)
Definition after_next (st : Frame) : Frame :=
  log (EvNext (fst (ars_next (ars st)))) (set_ars (snd (ars_next (ars st))) st).

(** The frame once the responses [rs] were taken from the engine, now at [a],
    and the cursors they establish stored. *)
Definition after_responses (rs : list Response) (a : AsyncRequestsSender)
    (st : Frame) : Frame :=
  mkFrame a (executor st) (remoteCursors st ++ cursors_of rs)
    (trace st ++ map EvNext rs).

(** A loop body that takes one completion from the engine. *)
Definition takes_one (body : M Frame unit) : Prop :=
  forall st, ars (snd (body st)) = snd (ars_next (ars st)).

(** [ars_run a rs a']: from [a], successive calls of [next], each made while
    the engine is not done, hand over [rs] and leave the engine at [a']. *)
Inductive ars_run : AsyncRequestsSender -> list Response -> AsyncRequestsSender -> Prop :=
| ars_run_nil a : ars_run a [] a
| ars_run_cons a r a' rs a'' :
    ars_done a = false ->
    ars_next a = (r, a') ->
    ars_run a' rs a'' ->
    ars_run a (r :: rs) a''.

(** The states the function can bring the engine to. *)
Inductive ars_reach (a : AsyncRequestsSender) : AsyncRequestsSender -> Prop :=
| ars_reach_here : ars_reach a a
| ars_reach_next a1 :
    ars_reach a a1 -> ars_done a1 = false -> ars_reach a (snd (ars_next a1))
| ars_reach_stop a1 :
    ars_reach a a1 -> ars_reach a (ars_stopRetrying a1).

(** The engine's contract on hosts: a response with a successful outcome
    carries the host it came from. *)
Definition hosts_present (a : AsyncRequestsSender) : Prop :=
  forall a1, ars_reach a a1 -> ars_done a1 = false ->
    isOK (swResponse (fst (ars_next a1))) = true ->
    shardHostAndPort (fst (ars_next a1)) <> None.

(** The same contract, for one response. *)
Definition host_ok (response : Response) : Prop :=
  isOK (swResponse response) = true -> shardHostAndPort response <> None.

(** What a trace says of the executor: the requests submitted, in order, and
    whether a submission left by an exception. *)
Definition is_schedule (ev : Event) : Prop :=
  match ev with EvSchedule _ _ => True | _ => False end.

Fixpoint scheduled_requests (tr : list Event) : list RemoteCommandRequest :=
  match tr with
  | [] => []
  | EvSchedule request _ :: rest => request :: scheduled_requests rest
  | _ :: rest => scheduled_requests rest
  end.

Fixpoint schedule_threw (tr : list Event) : bool :=
  match tr with
  | [] => false
  | EvSchedule _ (ScheduleThrew _) :: _ => true
  | _ :: rest => schedule_threw rest
  end.


(** The killCursors request as C7 words it: sent to the host recorded in the
    cursor and naming the namespace recorded in the cursor's response, where
    [killCursors_request] names the namespace of the call. *)
Definition killCursors_request_as_recorded (opCtx : OperationContext)
    (remoteCursor : RemoteCursor) : RemoteCommandRequest :=
  let recorded := cr_nss (cursorResponse remoteCursor) in
  let cmdObj :=
    KillCursorsRequest_toBSON
      (mkKillCursorsRequest recorded [getCursorId (cursorResponse remoteCursor)]) in
  mkRemoteCommandRequest (hostAndPort remoteCursor) (ns_db recorded) cmdObj opCtx.

End Notions.

(** ** A scripted cluster

    A small instance of the collaborators: the engine hands over what a fixed
    table says of each shard, last request first; the executor answers from a
    script.  It runs the function on concrete inputs. *)

Module Scripted.
Local Open Scope string_scope.
Local Open Scope Z_scope.

Inductive Doc :=
| FindCmd
| CursorReply (id : CursorId)
| CommandError (c : ErrorCode)
| Garbage
| KillCursorsCmd (ns : NamespaceString) (ids : list CursorId).

#[export] Instance types : ExternalTypes :=
  {| BSONObj := Doc; OperationContext := nat; ReadPreferenceSetting := unit |}.

Record Sender := mkSender { stopped : bool; queue : list Response }.

Definition test_nss : NamespaceString := mkNamespaceString "test" "coll".

(** A namespace other than the one the shards' cursors are on, as that of a
    view is. *)
Definition view_nss : NamespaceString := mkNamespaceString "test" "view".

Definition parse (d : Doc) : StatusWith CursorResponse :=
  match d with
  | CursorReply id => SWValue (mkCursorResponse test_nss id [])
  | CommandError c => SWStatus (mkStatus c "command failed")
  | _ => SWStatus (mkStatus 9 "FailedToParse")
  end.

Definition toBSON (kc : KillCursorsRequest) : Doc :=
  KillCursorsCmd (kc_nss kc) (kc_cursorIds kc).

Definition HostUnreachable : ErrorCode := 6.
Definition NamespaceNotFound : ErrorCode := 26.
Definition NetworkTimeout : ErrorCode := 89.
Definition PrimarySteppedDown : ErrorCode := 189.
Definition ShutdownInProgress : ErrorCode := 91.

Definition retriable : list ErrorCode :=
  [HostUnreachable; 7; NetworkTimeout; PrimarySteppedDown; 10107; 13435; 13436].

Definition reply (d : Doc) : StatusWith RemoteCommandResponse :=
  SWValue (mkRemoteCommandResponse d).

(** What each shard of the cluster answers. *)
Definition answer (rq : Request) : Response :=
  let shard := rq_shardId rq in
  if String.eqb shard "shard1" then
    mkResponse shard (reply (CursorReply 101)) (Some (mkHostAndPort "host1" 27017))
  else if String.eqb shard "shard2" then
    mkResponse shard (reply (CursorReply 102)) (Some (mkHostAndPort "host2" 27017))
  else if String.eqb shard "shard3" then
    mkResponse shard (reply (CursorReply 103)) (Some (mkHostAndPort "host3" 27017))
  else if String.eqb shard "slow" then
    mkResponse shard (SWStatus (mkStatus NetworkTimeout "timed out")) None
  else if String.eqb shard "stepdown" then
    mkResponse shard (reply (CommandError PrimarySteppedDown))
      (Some (mkHostAndPort "host5" 27017))
  else if String.eqb shard "nons" then
    mkResponse shard (reply (CommandError NamespaceNotFound))
      (Some (mkHostAndPort "host4" 27017))
  else
    mkResponse shard (SWStatus (mkStatus HostUnreachable "no such host")) None.

Definition sender_done (a : Sender) : bool :=
  match queue a with [] => true | _ :: _ => false end.

Definition sender_next (a : Sender) : Response * Sender :=
  match queue a with
  | r :: q => (r, mkSender (stopped a) q)
  | [] => (mkResponse EmptyString (SWStatus (mkStatus 0 EmptyString)) None, a)
  end.

Definition sender_stop (a : Sender) : Sender := mkSender true (queue a).

Definition Executor := list ScheduleOutcome.

Definition submit (e : Executor) (request : RemoteCommandRequest)
  : ScheduleOutcome * Executor :=
  match e with
  | [] => (Scheduled (SWValue 0%nat), [])
  | o :: e' => (o, e')
  end.

#[export] Instance cluster : Collaborators.
Proof.
  refine {| AsyncRequestsSender := Sender;
            TaskExecutor := Executor;
            parseFromBSON := parse;
            KillCursorsRequest_toBSON := toBSON;
            kAllRetriableErrors := retriable;
            AsyncRequestsSender_new :=
              fun _ _ _ requests _ _ => mkSender false (rev (map answer requests));
            ars_done := sender_done;
            ars_next := sender_next;
            ars_stopRetrying := sender_stop;
            ars_pending := fun a => List.length (queue a);
            scheduleRemoteCommand := submit |}.
  intros [s q]; unfold sender_done, sender_next; simpl.
  destruct q; simpl; [discriminate | intros _; apply Nat.lt_succ_diag_r].
Defined.

(** The contract on hosts, as a test on a response. *)
Definition host_okb (r : Response) : bool :=
  implb (isOK (swResponse r))
        (match shardHostAndPort r with Some _ => true | None => false end).

Definition find : Doc := FindCmd.

(** The completions of a call, in the order the engine hands them over. *)
Definition completions (remotes : list (ShardId * Doc)) : list Response :=
  rev (map answer (map (fun remote => mkRequest (fst remote) (snd remote)) remotes)).

Definition all_up : list (ShardId * Doc) :=
  [("shard1", find); ("shard2", find); ("shard3", find)].

Definition one_slow : list (ShardId * Doc) :=
  [("shard1", find); ("slow", find); ("shard3", find)].

Definition one_nons : list (ShardId * Doc) :=
  [("slow", find); ("shard3", find); ("nons", find); ("shard1", find)].

Definition shard1_reply : Response := answer (mkRequest "shard1" find).
Definition shard3_reply : Response := answer (mkRequest "shard3" find).
Definition slow_reply : Response := answer (mkRequest "slow" find).
Definition stepdown_reply : Response := answer (mkRequest "stepdown" find).
Definition nons_reply : Response := answer (mkRequest "nons" find).

Definition namespace_not_found : Status :=
  mkStatus NamespaceNotFound "command failed".

(** A frame whose engine has one completion left. *)
Definition awaiting (r : Response) : Frame :=
  mkFrame (mkSender false [r]) ([] : Executor) [] [].

Definition rejecting : Executor :=
  [Scheduled (SWStatus (mkStatus ShutdownInProgress "shutting down"));
   Scheduled (SWStatus (mkStatus ShutdownInProgress "shutting down"))].

Definition throwing : Executor :=
  [ScheduleThrew (mkDBException (mkStatus ShutdownInProgress "shutting down"))].

End Scripted.

(** ** Further notions: what a trace and an engine say *)

(** [holds_after P m Q]: run from a state with [P], the computation [m] ends,
    however it ends, in a state with [Q]. *)
Definition holds_after {St A} (P : St -> Prop) (m : M St A) (Q : St -> Prop) : Prop :=
  forall st, P st -> Q (snd (m st)).

Section FurtherNotions.
Context `{Collaborators}.

(** The responses a trace shows taken from the engine, in order. *)
Fixpoint responses_taken (tr : list Event) : list Response :=
  match tr with
  | [] => []
  | EvNext response :: rest => response :: responses_taken rest
  | _ :: rest => responses_taken rest
  end.

(** The number of calls of [stopRetrying] a trace shows. *)
Fixpoint stops (tr : list Event) : nat :=
  match tr with
  | [] => 0
  | EvStopRetrying :: rest => S (stops rest)
  | _ :: rest => stops rest
  end.

(** An engine none of whose completions fails with a retriable code. *)
Definition no_retriable_failure (a : AsyncRequestsSender) : Prop :=
  forall a1 s, ars_reach a a1 -> ars_done a1 = false ->
    failure_of (fst (ars_next a1)) = Some s -> ~ isRetriable (code s).

(** Before the clean-up: the cursors are those of the responses taken and
    nothing was submitted. *)
Definition collecting (st : Frame) : Prop :=
  remoteCursors st = cursors_of (responses_taken (trace st)) /\
  scheduled_requests (trace st) = [].

(** What the function keeps true of its frame: the cursors stored are those
    of the responses taken, and the requests submitted are the killCursors
    requests of the first of them. *)
Definition accounted (opCtx : OperationContext) (nss : NamespaceString)
    (st : Frame) : Prop :=
  remoteCursors st = cursors_of (responses_taken (trace st)) /\
  exists k, scheduled_requests (trace st) =
            map (killCursors_request opCtx nss) (firstn k (remoteCursors st)).

End FurtherNotions.

(** More of the scripted cluster: a response that parses and names no host,
    and a test for engines without retriable failures. *)
Module ScriptedMore.
Import Scripted.
Local Open Scope string_scope.
Local Open Scope Z_scope.
Local Open Scope list_scope.

Definition hostless_reply : Response :=
  mkResponse "shard9" (reply (CursorReply 109)) None.

Definition not_retriableb (r : Response) : bool :=
  match failure_of r with
  | Some s => negb (std_find_code retriable (code s))
  | None => true
  end.

Definition nons_between : list (ShardId * Doc) :=
  [("shard3", find); ("nons", find); ("shard1", find)].

End ScriptedMore.

(** * Document and MutableDocument (mongo/db/pipeline/document.h)

    The inline functions of the header, over a heap of reference-counted
    [DocumentStorage] objects.  A [Document] is its [_storage], a
    [boost::intrusive_ptr]: making one from a raw pointer or copying one adds
    a reference to the object pointed to, destroying one releases it.  A
    [MutableDocument] is the raw pointer [_storage], here always bound to
    [_storageHolder] as the public constructors bind it; the documents nested
    in a [Value], which [MutableValue] reaches, are left out: a [Value] is data that
    holds no reference into the heap, and the properties are of heaps whose
    counts are exact ([counted]), where none does. *)

Module DocumentModel.

(** What [DocumentStorage] and [Value] (document_internal.h, value.h) give
    the header: what a storage object holds and the operations on it. *)
Class StorageOps := {
  Value : Type;
  (** [Value()], the missing value *)
  Value_missing : Value;
  (** what one [DocumentStorage] object holds *)
  DocumentStorage : Type;
  (** [new DocumentStorage] *)
  ds_new : DocumentStorage;
  (** [DocumentStorage::emptyDoc()] *)
  ds_emptyDoc : DocumentStorage;
  (** [clone()]: what the copy holds *)
  ds_clone : DocumentStorage -> DocumentStorage;
  (** [getField(key)] of a const storage *)
  ds_getField : DocumentStorage -> string -> Value;
  (** [size()] *)
  ds_size : DocumentStorage -> nat;
  (** [iterator().atEnd()] *)
  ds_atEnd : DocumentStorage -> bool;
  (** [appendField(name) = val] *)
  ds_appendField : string -> Value -> DocumentStorage -> DocumentStorage;
  (** [getField(key) = val] on a storage that may be written *)
  ds_assignField : string -> Value -> DocumentStorage -> DocumentStorage;
  (** [Value(std::vector<Value>)] *)
  Value_of_array : list Value -> Value
}.

Section Model.
Context `{StorageOps}.

(** ** The heap *)

(** A [RefCountable] object: its count and what it holds. *)
Record RefCounted := mkRefCounted { count : nat; contents : DocumentStorage }.

(** Addresses are numbers; [fresh] is the next one [new] gives out. *)
Record Heap := mkHeap { objs : nat -> option RefCounted; fresh : nat }.

Definition Ptr := option nat.

Definition upd (a : nat) (o : option RefCounted)
    (m : nat -> option RefCounted) : nat -> option RefCounted :=
  fun x => if Nat.eqb x a then o else m x.

(** [new DocumentStorage(...)]: a new object, not yet counted. *)
Definition alloc (s : DocumentStorage) (h : Heap) : nat * Heap :=
  (fresh h, mkHeap (upd (fresh h) (Some (mkRefCounted 0 s)) (objs h)) (S (fresh h))).

(** [intrusive_ptr_add_ref(p)] *)
Definition intrusive_ptr_add_ref (a : nat) (h : Heap) : Heap :=
  match objs h a with
  | Some o => mkHeap (upd a (Some (mkRefCounted (S (count o)) (contents o))) (objs h)) (fresh h)
  | None => h
  end.

(** [intrusive_ptr_release(p)]: the last reference deletes the object. *)
Definition intrusive_ptr_release (a : nat) (h : Heap) : Heap :=
  match objs h a with
  | Some o =>
      match count o with
      | S (S n) => mkHeap (upd a (Some (mkRefCounted (S n) (contents o))) (objs h)) (fresh h)
      | _ => mkHeap (upd a None (objs h)) (fresh h)
      end
  | None => h
  end.

(** [p->isShared()] *)
Definition isShared (a : nat) (h : Heap) : bool :=
  match objs h a with
  | Some o => Nat.ltb 1 (count o)
  | None => false
  end.

(** Writing through a [DocumentStorage&]. *)
Definition write_at (a : nat) (f : DocumentStorage -> DocumentStorage) (h : Heap) : Heap :=
  match objs h a with
  | Some o => mkHeap (upd a (Some (mkRefCounted (count o) (f (contents o)))) (objs h)) (fresh h)
  | None => h
  end.

(** ** Document *)

Definition Document := Ptr.

(** [Document() {}] *)
Definition Document_empty_ctor : Document := None.

(** [explicit Document(const DocumentStorage* ptr) : _storage(ptr)] *)
Definition Document_of_ptr (p : Ptr) (h : Heap) : Document * Heap :=
  match p with
  | Some a => (Some a, intrusive_ptr_add_ref a h)
  | None => (None, h)
  end.

(** The copy constructor and the destructor. *)
Definition Document_copy (d : Document) (h : Heap) : Document * Heap :=
  Document_of_ptr d h.

Definition Document_destroy (d : Document) (h : Heap) : Heap :=
  match d with
  | Some a => intrusive_ptr_release a h
  | None => h
  end.

(** [storage()]: [_storage ? *_storage : DocumentStorage::emptyDoc()].  A
    pointer to a deleted object, which C++ gives no meaning, reads as the
    empty storage; in a [counted] heap no reference is one. *)
Definition Document_storage (h : Heap) (d : Document) : DocumentStorage :=
  match d with
  | Some a =>
      match objs h a with
      | Some o => contents o
      | None => ds_emptyDoc
      end
  | None => ds_emptyDoc
  end.

(** [getField(key)], [operator[]] *)
Definition Document_getField (h : Heap) (d : Document) (key : string) : Value :=
  ds_getField (Document_storage h d) key.

(** [size()] *)
Definition Document_size (h : Heap) (d : Document) : nat :=
  ds_size (Document_storage h d).

(** [empty()]: [!_storage || storage().iterator().atEnd()] *)
Definition Document_empty (h : Heap) (d : Document) : bool :=
  match d with
  | None => true
  | Some _ => ds_atEnd (Document_storage h d)
  end.

(** [clone()]: [Document(storage().clone().get())]; the pointer [clone()]
    returns holds the copy until the statement ends. *)
Definition Document_clone (d : Document) (h : Heap) : Document * Heap :=
  let (b, h1) := alloc (ds_clone (Document_storage h d)) h in
  let h2 := intrusive_ptr_add_ref b h1 in
  let (r, h3) := Document_of_ptr (Some b) h2 in
  (r, intrusive_ptr_release b h3).

(** [getOwned()]: [return *this] *)
Definition Document_getOwned (d : Document) (h : Heap) : Document * Heap :=
  Document_copy d h.

(** ** MutableDocument *)

Definition MutableDocument := Ptr.

(** [MutableDocument() : _storageHolder(NULL), _storage(_storageHolder)] *)
Definition MutableDocument_ctor : MutableDocument := None.

(** [reset(boost::intrusive_ptr<const DocumentStorage> ds)]: the reference
    [ds] holds passes to the MutableDocument. *)
Definition reset_ptr (ds : Ptr) (md : MutableDocument) (h : Heap)
  : MutableDocument * Heap :=
  let h1 := match md with Some a => intrusive_ptr_release a h | None => h end in
  (ds, h1).

(** [reset(Document d)]: [reset(std::move(d._storage))], [d] being the
    function's own Document. *)
Definition reset (d : Document) (md : MutableDocument) (h : Heap)
  : MutableDocument * Heap :=
  reset_ptr d md h.

(** [explicit MutableDocument(Document d)] *)
Definition MutableDocument_of (d : Document) (h : Heap) : MutableDocument * Heap :=
  reset d MutableDocument_ctor h.

(** [~MutableDocument()] *)
Definition MutableDocument_dtor (md : MutableDocument) (h : Heap) : Heap :=
  match md with
  | Some a => intrusive_ptr_release a h
  | None => h
  end.

(** [newStorage()]: [reset(new DocumentStorage)] *)
Definition newStorage (md : MutableDocument) (h : Heap) : MutableDocument * Heap :=
  let (a, h1) := alloc ds_new h in
  reset_ptr (Some a) md (intrusive_ptr_add_ref a h1).

(** [clonedStorage()]: [reset(storagePtr()->clone())] *)
Definition clonedStorage (md : MutableDocument) (h : Heap) : MutableDocument * Heap :=
  let (b, h1) := alloc (ds_clone (Document_storage h md)) h in
  reset_ptr (Some b) md (intrusive_ptr_add_ref b h1).

(** [storage()]: the storage to write to, new if there is none, a copy if it
    is shared. *)
Definition storage (md : MutableDocument) (h : Heap) : MutableDocument * Heap :=
  match md with
  | None => newStorage md h
  | Some a => if isShared a h then clonedStorage md h else (md, h)
  end.

(** A write through [storage()]. *)
Definition write (f : DocumentStorage -> DocumentStorage)
    (md : MutableDocument) (h : Heap) : MutableDocument * Heap :=
  let (md', h') := storage md h in
  match md' with
  | Some a => (md', write_at a f h')
  | None => (md', h')
  end.

(** [addField(fieldName, val)]: [storage().appendField(fieldName) = val] *)
Definition addField (fieldName : string) (val : Value) :=
  write (ds_appendField fieldName val).

(** [setField(key, val)]: [getField(key) = val] *)
Definition setField (key : string) (val : Value) :=
  write (ds_assignField key val).

(** [remove(key)]: [getField(key) = Value()] *)
Definition remove (key : string) := setField key Value_missing.

(** [peek()]: [Document(storagePtr())] *)
Definition peek (md : MutableDocument) (h : Heap) : Document * Heap :=
  Document_of_ptr md h.

(** [freeze()]: the pointer moves to the Document returned, without a new
    reference, and [_storage] is set to [NULL]. *)
Definition freeze (md : MutableDocument) (h : Heap)
  : Document * MutableDocument * Heap :=
  (md, None, h).

(** ** DocumentStream and ValueArrayStream, behind [DOC] and [DOC_ARRAY] *)



(** [stream << val]: [_array.push_back(val)] *)
Definition ValueArrayStream_put (array : list Value) (val : Value) : list Value :=
  array ++ [val].

(** [(ValueArrayStream() << fields).done()] *)
Definition DOC_ARRAY (vals : list Value) : Value :=
  Value_of_array (fold_left ValueArrayStream_put vals []).

(** ** What the counts are counts of *)

Definition Ptr_eq_dec (p q : option nat) : {p = q} + {p <> q}.
Proof. decide equality. apply Nat.eq_dec. Defined.

(** The references to the object at [a]: the MutableDocument's, and those of
    the Documents alive. *)
Definition refs (a : nat) (md : MutableDocument) (docs : list Document) : nat :=
  (if Ptr_eq_dec md (Some a) then 1 else 0) + count_occ Ptr_eq_dec docs (Some a).

(** A heap whose objects are those referred to, each counted right, and in
    which the addresses to come are free. *)
Definition counted (h : Heap) (md : MutableDocument) (docs : list Document) : Prop :=
  (forall a, fresh h <= a -> objs h a = None) /\
  (forall a,
     match objs h a with
     | Some o => count o = refs a md docs /\ 0 < count o
     | None => refs a md docs = 0
     end).

End Model.

End DocumentModel.

(** A small instance: values are numbers or arrays, a storage is the list
    of its fields.  It runs the header's functions on concrete documents. *)
Module ListDocuments.
Import DocumentModel.
Local Open Scope string_scope.
Local Open Scope Z_scope.
Local Open Scope list_scope.

#[local] Set Warnings "-register-all".

Inductive Val :=
| VMissing
| VInt (z : Z)
| VArray (l : list Val).

Definition Fields := list (string * Val).

Fixpoint lookup (s : Fields) (key : string) : Val :=
  match s with
  | [] => VMissing
  | (k, v) :: rest => if String.eqb k key then v else lookup rest key
  end.

Fixpoint assign (key : string) (val : Val) (s : Fields) : Fields :=
  match s with
  | [] => [(key, val)]
  | (k, v) :: rest =>
      if String.eqb k key then (k, val) :: rest else (k, v) :: assign key val rest
  end.

#[export] Instance ops : StorageOps :=
  {| Value := Val;
     Value_missing := VMissing;
     DocumentStorage := Fields;
     ds_new := [];
     ds_emptyDoc := [];
     ds_clone := fun s => s;
     ds_getField := lookup;
     ds_size := fun s => List.length s;
     ds_atEnd := fun s => match s with [] => true | _ => false end;
     ds_appendField := fun name val s => s ++ [(name, val)];
     ds_assignField := assign;
     Value_of_array := VArray |}.

Definition no_heap : Heap := mkHeap (fun _ => None) 0.

(** A MutableDocument with one field, alone on its heap. *)
Definition one_field : MutableDocument * Heap :=
  addField "a" (VInt 1) MutableDocument_ctor no_heap.

End ListDocuments.

(** * Properties *)

Unset Implicit Arguments.

Section Properties.
Context `{Collaborators}.
Variable opCtx : OperationContext.
Variable nss : NamespaceString.
Variable allowPartialResults : bool.


(** ** The membership test *)

Lemma std_find_code_In l c : std_find_code l c = true <-> In c l.
Proof.
  induction l as [|x l IH]; simpl.
  - split; [discriminate | tauto].
  - destruct (Z.eqb_spec x c) as [->|Hne].
    + split; auto.
    + rewrite IH. split; [auto | intros [E|E]; [contradiction | exact E]].
Qed.

Lemma swallow_test_true s :
  allowPartialResults && std_find_code kAllRetriableErrors (code s) = true <->
  allowPartialResults = true /\ isRetriable (code s).
Proof.
  unfold isRetriable. rewrite andb_true_iff, std_find_code_In. tauto.
Qed.

Lemma swallow_test_false s :
  allowPartialResults && std_find_code kAllRetriableErrors (code s) = false <->
  ~ (allowPartialResults = true /\ isRetriable (code s)).
Proof.
  rewrite <- swallow_test_true.
  destruct (allowPartialResults && _); split; intros; congruence.
Qed.

(** ** One iteration of each loop, in closed form *)

Lemma collect_body_eq st :
  (collect_body allowPartialResults) st =
  let r := fst (ars_next (ars st)) in
  match parse_response r with
  | SWValue cr =>
      match shardHostAndPort r with
      | Some hp =>
          (Normal tt, push_cursor (mkRemoteCursor (shardId r) hp cr) (after_next st))
      | None => (Undefined, after_next st)
      end
  | SWStatus s =>
      if allowPartialResults && std_find_code kAllRetriableErrors (code s)
      then (Normal tt, after_next st)
      else (Throws (mkDBException s), after_next st)
  end.
Proof.
  unfold collect_body, collect_try, collect_catch, try_catch, bind,
    next, after_next, parse_response, ex_code.
  destruct (ars_next (ars st)) as [r a]; simpl.
  destruct (swResponse r) as [reply|s]; simpl.
  - destruct (parseFromBSON (data reply)) as [cr|s]; simpl.
    + destruct (shardHostAndPort r); reflexivity.
    + destruct (allowPartialResults && _); reflexivity.
  - destruct (allowPartialResults && _); reflexivity.
Qed.

Lemma drain_body_eq st :
  drain_body st =
  let r := fst (ars_next (ars st)) in
  match parse_response r with
  | SWValue cr =>
      match shardHostAndPort r with
      | Some hp =>
          (Normal tt, push_cursor (mkRemoteCursor (shardId r) hp cr) (after_next st))
      | None => (Undefined, after_next st)
      end
  | SWStatus s => (Normal tt, after_next st)
  end.
Proof.
  unfold drain_body, bind, next, after_next.
  destruct (ars_next (ars st)) as [r a]; simpl.
  destruct (parse_response r) as [cr|s]; simpl; [|reflexivity].
  destruct (shardHostAndPort r); reflexivity.
Qed.


(** ** The loops terminate *)

Lemma collect_body_takes_one : takes_one (collect_body allowPartialResults).
Proof.
  intros st. rewrite collect_body_eq. cbv zeta.
  destruct (parse_response _); [destruct (shardHostAndPort _)|destruct (_ && _)];
    reflexivity.
Qed.

Lemma drain_body_takes_one : takes_one drain_body.
Proof.
  intros st. rewrite drain_body_eq. cbv zeta.
  destruct (parse_response _); [destruct (shardHostAndPort _)|]; reflexivity.
Qed.

Lemma pending_positive a : ars_done a = false -> 0 < ars_pending a.
Proof. intros Hd. pose proof (ars_next_pending a Hd). lia. Qed.

Lemma while_not_done_fuel body (Hb : takes_one body) fuel1 :
  forall fuel2 st,
    ars_pending (ars st) <= fuel1 -> ars_pending (ars st) <= fuel2 ->
    while_not_done fuel1 body st = while_not_done fuel2 body st.
Proof.
  induction fuel1 as [|fuel1 IH]; intros fuel2 st H1 H2.
  - destruct fuel2; simpl; destruct (ars_done (ars st)) eqn:Hd; try reflexivity;
      apply pending_positive in Hd; lia.
  - destruct fuel2; simpl; destruct (ars_done (ars st)) eqn:Hd; try reflexivity.
    + apply pending_positive in Hd; lia.
    + unfold bind. pose proof (Hb st) as Hst.
      pose proof (ars_next_pending _ Hd) as Hlt.
      destruct (body st) as [[[]| | |] st']; try reflexivity.
      simpl in Hst. apply IH; rewrite Hst; lia.
Qed.

(** [while (!ars.done()) body] unrolls as a loop does. *)
Lemma while_unroll body (Hb : takes_one body) st :
  while_ars_not_done body st =
  if ars_done (ars st) then (Normal tt, st)
  else (body ;; while_ars_not_done body) st.
Proof.
  unfold while_ars_not_done at 1.
  destruct (ars_done (ars st)) eqn:Hd.
  - destruct (ars_pending (ars st)); simpl; rewrite Hd; reflexivity.
  - pose proof (ars_next_pending _ Hd) as Hlt.
    destruct (ars_pending (ars st)) as [|n] eqn:Hn; [lia|].
    simpl. rewrite Hd. unfold bind. pose proof (Hb st) as Hst.
    destruct (body st) as [[[]| | |] st']; try reflexivity.
    simpl in Hst. unfold while_ars_not_done.
    apply while_not_done_fuel; [exact Hb | rewrite Hst; lia | lia].
Qed.


(** ** Frames *)

Lemma after_responses_nil a st :
  after_responses [] a st = set_ars a st.
Proof.
  unfold after_responses, set_ars; simpl. now rewrite !app_nil_r.
Qed.

Lemma cursors_of_app rs1 rs2 :
  cursors_of (rs1 ++ rs2) = cursors_of rs1 ++ cursors_of rs2.
Proof. unfold cursors_of. apply flat_map_app. Qed.

Lemma after_responses_app rs1 rs2 a1 a2 st :
  after_responses rs2 a2 (after_responses rs1 a1 st) =
  after_responses (rs1 ++ rs2) a2 st.
Proof.
  unfold after_responses; simpl.
  now rewrite cursors_of_app, map_app, !app_assoc.
Qed.

Lemma after_responses_cons r rs a1 a2 st :
  after_responses rs a2 (after_responses [r] a1 st) =
  after_responses (r :: rs) a2 st.
Proof. apply (after_responses_app [r] rs). Qed.

(** ** What a completion is *)

Lemma parse_ok_transport_ok r cr :
  parse_response r = SWValue cr -> isOK (swResponse r) = true.
Proof.
  unfold parse_response. destruct (swResponse r); [reflexivity | discriminate].
Qed.

Lemma cursor_of_some r rc :
  cursor_of r = Some rc ->
  exists cr hp, parse_response r = SWValue cr /\ shardHostAndPort r = Some hp /\
                rc = mkRemoteCursor (shardId r) hp cr.
Proof.
  unfold cursor_of. destruct (parse_response r) as [cr|]; [|discriminate].
  destruct (shardHostAndPort r) as [hp|]; [|discriminate].
  intros [= <-]. now exists cr, hp.
Qed.

Lemma failure_of_some r s :
  failure_of r = Some s <-> parse_response r = SWStatus s.
Proof.
  unfold failure_of. destruct (parse_response r); split; congruence.
Qed.

Lemma failure_no_cursor r s : failure_of r = Some s -> cursor_of r = None.
Proof.
  rewrite failure_of_some. unfold cursor_of. now intros ->.
Qed.

(** Under the contract on hosts a completion either establishes a cursor or
    is a failure. *)
Lemma host_ok_cases r :
  host_ok r ->
  (exists rc, cursor_of r = Some rc) \/ (exists s, failure_of r = Some s).
Proof.
  intros Hh. unfold cursor_of, failure_of.
  destruct (parse_response r) as [cr|s] eqn:Hp; [left | right; now exists s].
  apply parse_ok_transport_ok in Hp. specialize (Hh Hp).
  destruct (shardHostAndPort r) as [hp|]; [eauto | contradiction].
Qed.

(** ** One iteration, by the kind of completion *)

Lemma collect_body_collected st r a :
  ars_next (ars st) = (r, a) -> collected allowPartialResults r ->
  (collect_body allowPartialResults) st = (Normal tt, after_responses [r] a st).
Proof.
  intros Hn Hc. rewrite collect_body_eq. unfold after_next, after_responses.
  rewrite Hn; simpl. destruct Hc as [[rc Hrc] | (s & Hs & Ha & Hr)].
  - unfold cursors_of; simpl. rewrite Hrc.
    apply cursor_of_some in Hrc as (cr & hp & -> & -> & ->). reflexivity.
  - unfold cursors_of; simpl. rewrite (failure_no_cursor _ _ Hs).
    apply failure_of_some in Hs. rewrite Hs.
    replace (allowPartialResults && _) with true
      by (symmetry; apply swallow_test_true; auto).
    unfold log, set_ars; simpl. now rewrite app_nil_r.
Qed.

Lemma collect_body_fatal st r a s :
  ars_next (ars st) = (r, a) -> fatal allowPartialResults r s ->
  (collect_body allowPartialResults) st = (Throws (mkDBException s), after_responses [r] a st).
Proof.
  intros Hn [Hs Hf]. rewrite collect_body_eq. unfold after_next, after_responses.
  rewrite Hn; simpl. unfold cursors_of; simpl. rewrite (failure_no_cursor _ _ Hs).
  apply failure_of_some in Hs. rewrite Hs.
  replace (allowPartialResults && _) with false
    by (symmetry; apply swallow_test_false; auto).
  unfold log, set_ars; simpl. now rewrite app_nil_r.
Qed.

Lemma drain_body_host_ok st r a :
  ars_next (ars st) = (r, a) -> host_ok r ->
  drain_body st = (Normal tt, after_responses [r] a st).
Proof.
  intros Hn Hh. rewrite drain_body_eq. unfold after_next, after_responses.
  rewrite Hn; simpl. unfold cursors_of; simpl.
  destruct (host_ok_cases _ Hh) as [[rc Hrc] | [s Hs]].
  - rewrite Hrc. apply cursor_of_some in Hrc as (cr & hp & -> & -> & ->).
    reflexivity.
  - rewrite (failure_no_cursor _ _ Hs). apply failure_of_some in Hs. rewrite Hs.
    unfold log, set_ars; simpl. now rewrite app_nil_r.
Qed.


(** ** The engine's runs *)

Lemma ars_run_app a rs1 a1 rs2 a2 :
  ars_run a rs1 a1 -> ars_run a1 rs2 a2 -> ars_run a (rs1 ++ rs2) a2.
Proof.
  induction 1 as [|a r a' rs a'' Hd Hn _ IH]; intros H2; simpl; [exact H2|].
  econstructor; eauto.
Qed.

Lemma ars_run_app_inv rs1 : forall a rs2 a2,
  ars_run a (rs1 ++ rs2) a2 ->
  exists a1, ars_run a rs1 a1 /\ ars_run a1 rs2 a2.
Proof.
  induction rs1 as [|r rs1 IH]; intros a rs2 a2 Hrun; simpl in *.
  - exists a. split; [constructor | exact Hrun].
  - inversion Hrun as [|? ? a' ? ? Hd Hn Hrest]; subst.
    destruct (IH _ _ _ Hrest) as (a1 & H1 & H2).
    exists a1. split; [econstructor; eauto | exact H2].
Qed.

Lemma ars_reach_trans a b c : ars_reach a b -> ars_reach b c -> ars_reach a c.
Proof.
  intros Hab Hbc. induction Hbc; [exact Hab | |]; now constructor.
Qed.

Lemma ars_run_reach a rs a' : ars_run a rs a' -> ars_reach a a'.
Proof.
  induction 1 as [|a r a' rs a'' Hd Hn _ IH]; [constructor|].
  eapply ars_reach_trans; [|exact IH].
  replace a' with (snd (ars_next a)) by now rewrite Hn.
  constructor; [constructor | exact Hd].
Qed.

Lemma hosts_present_reach a b :
  hosts_present a -> ars_reach a b -> hosts_present b.
Proof.
  intros Hh Hab c Hbc. apply Hh. eapply ars_reach_trans; eauto.
Qed.

Lemma hosts_present_next a r a' :
  hosts_present a -> ars_done a = false -> ars_next a = (r, a') ->
  host_ok r /\ hosts_present a'.
Proof.
  intros Hh Hd Hn. split.
  - pose proof (Hh a (ars_reach_here a) Hd) as Hr. now rewrite Hn in Hr.
  - apply (hosts_present_reach _ _ Hh).
    replace a' with (snd (ars_next a)) by now rewrite Hn.
    constructor; [constructor | exact Hd].
Qed.

Lemma hosts_present_run a rs a' :
  hosts_present a -> ars_run a rs a' -> Forall host_ok rs /\ hosts_present a'.
Proof.
  intros Hh Hrun. revert Hh.
  induction Hrun as [|a r a' rs a'' Hd Hn _ IH]; intros Hh; [now split|].
  destruct (hosts_present_next _ _ _ Hh Hd Hn) as [Hr Hh'].
  destruct (IH Hh') as [Hrs Hh'']. split; [now constructor | exact Hh''].
Qed.

(** ** The collection loop *)

Lemma collect_loop_run rs : forall st a1,
  ars_run (ars st) rs a1 -> Forall (collected allowPartialResults) rs ->
  while_ars_not_done (collect_body allowPartialResults) st =
  while_ars_not_done (collect_body allowPartialResults) (after_responses rs a1 st).
Proof.
  induction rs as [|r rs IH]; intros st a1 Hrun Hall.
  - inversion Hrun; subst. rewrite after_responses_nil.
    destruct st; reflexivity.
  - inversion Hrun as [|? ? a' ? ? Hd Hn Hrest]; subst.
    inversion Hall as [|? ? Hr Hrs]; subst.
    rewrite (while_unroll _ collect_body_takes_one), Hd.
    unfold bind. rewrite (collect_body_collected _ _ _ Hn Hr).
    rewrite (IH (after_responses [r] a' st) a1 Hrest Hrs).
    now rewrite after_responses_cons.
Qed.

Lemma collect_loop_done rs st a1 :
  ars_run (ars st) rs a1 -> ars_done a1 = true ->
  Forall (collected allowPartialResults) rs ->
  while_ars_not_done (collect_body allowPartialResults) st = (Normal tt, after_responses rs a1 st).
Proof.
  intros Hrun Hd Hall. rewrite (@collect_loop_run rs st a1 Hrun Hall).
  rewrite (while_unroll _ collect_body_takes_one). simpl. now rewrite Hd.
Qed.

Lemma collect_loop_fatal pre r s st a1 :
  ars_run (ars st) (pre ++ [r]) a1 ->
  Forall (collected allowPartialResults) pre ->
  fatal allowPartialResults r s ->
  while_ars_not_done (collect_body allowPartialResults) st =
  (Throws (mkDBException s), after_responses (pre ++ [r]) a1 st).
Proof.
  intros Hrun Hall Hf.
  apply ars_run_app_inv in Hrun as (a0 & Hpre & Hlast).
  inversion Hlast as [|? ? a' ? ? Hd Hn Hnil]; subst. inversion Hnil; subst.
  rewrite (@collect_loop_run pre st a0 Hpre Hall).
  rewrite (while_unroll _ collect_body_takes_one). simpl. rewrite Hd.
  unfold bind.
  rewrite (@collect_body_fatal (after_responses pre a0 st) r a1 s Hn Hf).
  now rewrite after_responses_app.
Qed.

(** Under the contract on hosts every run of the collection loop is of one
    of these two kinds. *)
Lemma collect_run_cases n : forall a,
  ars_pending a <= n -> hosts_present a ->
  (exists rs a1, ars_run a rs a1 /\ ars_done a1 = true /\
                 Forall (collected allowPartialResults) rs) \/
  (exists pre r s a1, ars_run a (pre ++ [r]) a1 /\
                 Forall (collected allowPartialResults) pre /\
                 fatal allowPartialResults r s).
Proof.
  induction n as [|n IH]; intros a Hle Hh.
  - left. exists [], a. split; [constructor | split; [|constructor]].
    destruct (ars_done a) eqn:Hd; [reflexivity|].
    apply pending_positive in Hd; lia.
  - destruct (ars_done a) eqn:Hd.
    { left. exists [], a. repeat split; [constructor | exact Hd | constructor]. }
    destruct (ars_next a) as [r a'] eqn:Hn.
    destruct (hosts_present_next _ _ _ Hh Hd Hn) as [Hr Hh'].
    pose proof (ars_next_pending _ Hd) as Hlt. rewrite Hn in Hlt; simpl in Hlt.
    assert (Hstep : forall rs a1, ars_run a' rs a1 -> ars_run a (r :: rs) a1)
      by (intros; econstructor; eauto).
    destruct (host_ok_cases _ Hr) as [Hrc | [s Hs]].
    + destruct (IH a' ltac:(lia) Hh')
        as [(rs & a1 & Hrun & Hd1 & Hall) | (pre & r' & s & a1 & Hrun & Hall & Hf)].
      * left. exists (r :: rs), a1. repeat split; auto.
        constructor; [now left | exact Hall].
      * right. exists (r :: pre), r', s, a1. repeat split; try apply Hf.
        -- apply Hstep, Hrun.
        -- constructor; [now left | exact Hall].
    + destruct (allowPartialResults && std_find_code kAllRetriableErrors (code s))
        eqn:Ht.
      * apply swallow_test_true in Ht.
        assert (Hc : collected allowPartialResults r) by (right; exists s; tauto).
        destruct (IH a' ltac:(lia) Hh')
          as [(rs & a1 & Hrun & Hd1 & Hall) | (pre & r' & s' & a1 & Hrun & Hall & Hf)].
        -- left. exists (r :: rs), a1. repeat split; auto.
        -- right. exists (r :: pre), r', s', a1. repeat split; try apply Hf.
           ++ apply Hstep, Hrun.
           ++ constructor; auto.
      * apply swallow_test_false in Ht.
        right. exists [], r, s, a'. repeat split; auto.
        apply (Hstep [] a'). constructor.
Qed.


(** ** The drain loop *)

Lemma drain_loop_run n : forall st,
  ars_pending (ars st) <= n -> hosts_present (ars st) ->
  exists post a2,
    ars_run (ars st) post a2 /\ ars_done a2 = true /\
    while_ars_not_done drain_body st = (Normal tt, after_responses post a2 st).
Proof.
  induction n as [|n IH]; intros st Hle Hh;
    rewrite (while_unroll _ drain_body_takes_one);
    destruct (ars_done (ars st)) eqn:Hd.
  - exists [], (ars st). rewrite after_responses_nil.
    repeat split; [constructor | exact Hd | now destruct st].
  - apply pending_positive in Hd; lia.
  - exists [], (ars st). rewrite after_responses_nil.
    repeat split; [constructor | exact Hd | now destruct st].
  - destruct (ars_next (ars st)) as [r a'] eqn:Hn.
    destruct (hosts_present_next _ _ _ Hh Hd Hn) as [Hr Hh'].
    pose proof (ars_next_pending _ Hd) as Hlt. rewrite Hn in Hlt; simpl in Hlt.
    unfold bind. rewrite (drain_body_host_ok _ _ _ Hn Hr).
    destruct (IH (after_responses [r] a' st) ltac:(simpl; lia) Hh')
      as (post & a2 & Hrun & Hd2 & Heq).
    exists (r :: post), a2. repeat split.
    + econstructor; eauto.
    + exact Hd2.
    + rewrite Heq. now rewrite after_responses_cons.
Qed.

(** ** The killCursors loop *)

Lemma scheduled_requests_app tr1 tr2 :
  scheduled_requests (tr1 ++ tr2) = scheduled_requests tr1 ++ scheduled_requests tr2.
Proof.
  induction tr1 as [|[r| |rq o] tr1 IH]; simpl; auto. now rewrite IH.
Qed.

Lemma scheduled_requests_next rs : scheduled_requests (map EvNext rs) = [].
Proof. induction rs; simpl; auto. Qed.

Lemma schedule_threw_next rs tr :
  schedule_threw (map EvNext rs ++ tr) = schedule_threw tr.
Proof. induction rs; simpl; auto. Qed.

Lemma schedule_killCursors_cons rc cursors st :
  schedule_killCursors opCtx nss (rc :: cursors) st =
  match scheduleRemoteCommand (executor st) (killCursors_request opCtx nss rc) with
  | (Scheduled sw, e) =>
      schedule_killCursors opCtx nss cursors
        (log (EvSchedule (killCursors_request opCtx nss rc) (Scheduled sw))
           (set_executor e st))
  | (ScheduleThrew ex, e) =>
      (Throws ex,
       log (EvSchedule (killCursors_request opCtx nss rc) (ScheduleThrew ex))
         (set_executor e st))
  end.
Proof.
  simpl. unfold bind, schedule, status_with_transitional_ignore, ret.
  destruct (scheduleRemoteCommand _ _) as [[sw|ex] e]; reflexivity.
Qed.

Lemma schedule_killCursors_run cursors : forall st,
  exists evs k e,
    snd (schedule_killCursors opCtx nss cursors st) =
      mkFrame (ars st) e (remoteCursors st) (trace st ++ evs) /\
    Forall is_schedule evs /\
    scheduled_requests evs =
      map (killCursors_request opCtx nss) (firstn k cursors) /\
    (schedule_threw evs = false ->
       scheduled_requests evs = map (killCursors_request opCtx nss) cursors) /\
    (fst (schedule_killCursors opCtx nss cursors st) = Normal tt \/
     exists ex, fst (schedule_killCursors opCtx nss cursors st) = Throws ex).
Proof.
  induction cursors as [|rc cursors IH]; intros st.
  - exists [], 0, (executor st). simpl. rewrite app_nil_r.
    repeat split; auto. now destruct st.
  - rewrite schedule_killCursors_cons.
    destruct (scheduleRemoteCommand _ _) as [[sw|ex] e1].
    + destruct (IH (log (EvSchedule (killCursors_request opCtx nss rc) (Scheduled sw))
                      (set_executor e1 st)))
        as (evs & k & e & Hst & Hev & Hreq & Hall & Hout).
      exists (EvSchedule (killCursors_request opCtx nss rc) (Scheduled sw) :: evs),
        (S k), e.
      rewrite Hst. simpl. rewrite <- app_assoc. simpl.
      repeat split; auto.
      * constructor; [exact I | exact Hev].
      * now rewrite Hreq.
      * intros Ht. now rewrite (Hall Ht).
    + exists [EvSchedule (killCursors_request opCtx nss rc) (ScheduleThrew ex)], 1, e1.
      simpl. repeat split; auto.
      * constructor; [exact I | constructor].
      * discriminate.
      * right. now exists ex.
Qed.

(** ** The outer catch block *)

Lemma on_error_run ex st :
  hosts_present (ars st) ->
  exists post a2 evs k st',
    (on_error opCtx nss) ex st = (Throws ex, st') /\
    ars_run (ars_stopRetrying (ars st)) post a2 /\ ars_done a2 = true /\
    ars st' = a2 /\
    remoteCursors st' = remoteCursors st ++ cursors_of post /\
    trace st' = trace st ++ EvStopRetrying :: map EvNext post ++ evs /\
    Forall is_schedule evs /\
    scheduled_requests evs =
      map (killCursors_request opCtx nss) (firstn k (remoteCursors st')) /\
    (schedule_threw evs = false ->
       scheduled_requests evs = map (killCursors_request opCtx nss) (remoteCursors st')).
Proof.
  intros Hh.
  set (st1 := log EvStopRetrying (set_ars (ars_stopRetrying (ars st)) st)).
  assert (Hh1 : hosts_present (ars st1)).
  { apply (hosts_present_reach _ _ Hh). simpl. constructor. constructor. }
  destruct (@drain_loop_run _ st1 (le_n _) Hh1)
    as (post & a2 & Hrun & Hd2 & Hloop).
  set (st2 := after_responses post a2 st1) in *.
  destruct (schedule_killCursors_run (remoteCursors st2) st2)
    as (evs & k & e & Hst & Hev & Hreq & Hall & Hout).
  exists post, a2, evs, k, (snd ((schedule_killCursors opCtx nss) (remoteCursors st2) st2)).
  assert (Hrc : remoteCursors (snd ((schedule_killCursors opCtx nss) (remoteCursors st2) st2))
                = remoteCursors st ++ cursors_of post) by now rewrite Hst.
  repeat split.
  - unfold on_error, cleanup_try, bind at 1, try_catch.
    unfold bind at 1, stopRetrying, modify. fold st1.
    unfold bind at 1. rewrite Hloop. fold st2.
    unfold bind at 1, gets.
    destruct ((schedule_killCursors opCtx nss) (remoteCursors st2) st2) as [o st3].
    simpl in Hout. destruct Hout as [-> | [ex' ->]]; reflexivity.
  - exact Hrun.
  - exact Hd2.
  - now rewrite Hst.
  - exact Hrc.
  - rewrite Hst. simpl. rewrite <- !app_assoc. reflexivity.
  - exact Hev.
  - rewrite Hrc. exact Hreq.
  - rewrite Hrc. exact Hall.
Qed.


(** ** The two ways out of [establish] *)

Lemma establish_done rs st a1 :
  ars_run (ars st) rs a1 -> ars_done a1 = true ->
  Forall (collected allowPartialResults) rs ->
  establish opCtx nss allowPartialResults st =
  (Normal (remoteCursors st ++ cursors_of rs), after_responses rs a1 st).
Proof.
  intros Hrun Hd Hall. unfold establish, try_catch, collect, bind.
  now rewrite (collect_loop_done _ st _ Hrun Hd Hall).
Qed.

Lemma establish_fatal pre r s st a1 :
  ars_run (ars st) (pre ++ [r]) a1 ->
  Forall (collected allowPartialResults) pre ->
  fatal allowPartialResults r s ->
  establish opCtx nss allowPartialResults st =
  on_error opCtx nss (mkDBException s) (after_responses (pre ++ [r]) a1 st).
Proof.
  intros Hrun Hall Hf. unfold establish, try_catch, collect, bind.
  now rewrite (collect_loop_fatal _ _ _ st _ Hrun Hall Hf).
Qed.

Lemma cursors_of_fatal pre r s :
  failure_of r = Some s -> cursors_of (pre ++ [r]) = cursors_of pre.
Proof.
  intros Hs. rewrite cursors_of_app. unfold cursors_of at 2; simpl.
  rewrite (failure_no_cursor _ _ Hs). simpl. now rewrite app_nil_r.
Qed.

(** The fatal path of [establish], from the first frame: what is raised and
    what the final frame holds. *)
Lemma fatal_path pre r s a exec a1 :
  hosts_present a ->
  ars_run a (pre ++ [r]) a1 ->
  Forall (collected allowPartialResults) pre ->
  fatal allowPartialResults r s ->
  exists post a2 evs k final,
    establish opCtx nss allowPartialResults (mkFrame a exec [] []) =
      (Throws (mkDBException s), final) /\
    ars_run (ars_stopRetrying a1) post a2 /\ ars_done a2 = true /\
    ars final = a2 /\
    remoteCursors final = cursors_of pre ++ cursors_of post /\
    trace final =
      map EvNext (pre ++ [r]) ++ EvStopRetrying :: map EvNext post ++ evs /\
    Forall is_schedule evs /\
    scheduled_requests evs =
      map (killCursors_request opCtx nss) (firstn k (remoteCursors final)) /\
    (schedule_threw evs = false ->
       scheduled_requests evs =
         map (killCursors_request opCtx nss) (remoteCursors final)).
Proof.
  intros Hh Hrun Hall Hf.
  rewrite (@establish_fatal pre r s (mkFrame a exec [] []) a1 Hrun Hall Hf).
  destruct (hosts_present_run _ _ _ Hh Hrun) as [_ Hh1].
  destruct (@on_error_run (mkDBException s)
              (after_responses (pre ++ [r]) a1 (mkFrame a exec [] [])) Hh1)
    as (post & a2 & evs & k & final & He & Hr & Hd & Ha & Hc & Ht & Hev & Hreq & Hallk).
  simpl in Hc, Ht, Hr. rewrite (@cursors_of_fatal pre r s (proj1 Hf)) in Hc.
  exists post, a2, evs, k, final. repeat split; auto.
Qed.

Lemma trace_fatal_requests pre r post evs :
  scheduled_requests
    (map EvNext (pre ++ [r]) ++ EvStopRetrying :: map EvNext post ++ evs) =
  scheduled_requests evs.
Proof.
  rewrite scheduled_requests_app, scheduled_requests_next. simpl.
  now rewrite scheduled_requests_app, scheduled_requests_next.
Qed.

Lemma trace_fatal_threw pre r post evs :
  schedule_threw
    (map EvNext (pre ++ [r]) ++ EvStopRetrying :: map EvNext post ++ evs) =
  schedule_threw evs.
Proof.
  rewrite schedule_threw_next. simpl. now rewrite schedule_threw_next.
Qed.

End Properties.

(** * The claims *)

Section Claims.
Context `{Collaborators}.

(** ** Completions that establish a cursor *)

Lemma parsed_established r :
  host_ok r -> isOK (parse_response r) = true -> exists rc, cursor_of r = Some rc.
Proof.
  intros Hh Hp. destruct (host_ok_cases _ Hh) as [Hrc | [s Hs]]; [exact Hrc|].
  apply failure_of_some in Hs. rewrite Hs in Hp. discriminate.
Qed.

Lemma cursors_of_cons_some r rc rs :
  cursor_of r = Some rc -> cursors_of (r :: rs) = rc :: cursors_of rs.
Proof. intros Hrc. unfold cursors_of; simpl. now rewrite Hrc. Qed.

Lemma cursors_of_cons_none r rs :
  cursor_of r = None -> cursors_of (r :: rs) = cursors_of rs.
Proof. intros Hrc. unfold cursors_of; simpl. now rewrite Hrc. Qed.

Lemma cursor_of_shardId r rc : cursor_of r = Some rc -> rc_shardId rc = shardId r.
Proof. intros Hrc. apply cursor_of_some in Hrc as (cr & hp & _ & _ & ->). reflexivity. Qed.

Lemma cursors_of_established rs :
  Forall (fun r => exists rc, cursor_of r = Some rc) rs ->
  Forall2 (fun r rc => cursor_of r = Some rc) rs (cursors_of rs).
Proof.
  induction 1 as [|r rs [rc Hrc] _ IH]; [constructor|].
  rewrite (cursors_of_cons_some _ _ rs Hrc). now constructor.
Qed.

Lemma cursors_of_shardIds_incl rs x :
  In x (map rc_shardId (cursors_of rs)) -> In x (map shardId rs).
Proof.
  induction rs as [|r rs IH]; [simpl; tauto|].
  destruct (cursor_of r) as [rc|] eqn:Hrc.
  - rewrite (cursors_of_cons_some _ _ rs Hrc). simpl.
    rewrite (cursor_of_shardId _ _ Hrc). tauto.
  - rewrite (cursors_of_cons_none _ rs Hrc). simpl. tauto.
Qed.

Lemma cursors_of_shardIds_NoDup rs :
  NoDup (map shardId rs) -> NoDup (map rc_shardId (cursors_of rs)).
Proof.
  induction rs as [|r rs IH]; intros Hnd; [constructor|].
  simpl in Hnd. inversion Hnd as [|? ? Hnin Hnd']; subst.
  destruct (cursor_of r) as [rc|] eqn:Hrc.
  - rewrite (cursors_of_cons_some _ _ rs Hrc). simpl. constructor; [|auto].
    rewrite (cursor_of_shardId _ _ Hrc). intros Hin.
    apply Hnin, cursors_of_shardIds_incl, Hin.
  - rewrite (cursors_of_cons_none _ rs Hrc). auto.
Qed.

Lemma hosts_and_parsed a rs a1 :
  hosts_present a -> ars_run a rs a1 ->
  Forall (fun r => isOK (parse_response r) = true) rs ->
  Forall (fun r => exists rc, cursor_of r = Some rc) rs.
Proof.
  intros Hh Hrun Hp. destruct (hosts_present_run _ _ _ Hh Hrun) as [Hok _].
  rewrite Forall_forall in *. intros r Hin.
  apply parsed_established; auto.
Qed.

(** C1.  When every target's completion is a successfully parsed cursor
    response, [establishCursors] returns one cursor per target: as many
    cursors as remotes, their shard ids those of the remotes, each cursor
    holding the shard id, the host and the parsed response of one
    completion. *)
Theorem establishCursors_all_established :
  forall opCtx exec nss readPref remotes allowPartialResults rs a1,
    hosts_present (sender_for opCtx exec nss readPref remotes) ->
    ars_run (sender_for opCtx exec nss readPref remotes) rs a1 ->
    ars_done a1 = true ->
    Forall (fun r => isOK (parse_response r) = true) rs ->
    Permutation (map shardId rs) (map fst remotes) ->
    exists cursors,
      fst (establishCursors opCtx exec nss readPref remotes allowPartialResults)
        = Normal cursors /\
      List.length cursors = List.length remotes /\
      Permutation (map rc_shardId cursors) (map fst remotes) /\
      Forall2
        (fun r rc =>
           rc_shardId rc = shardId r /\
           parse_response r = SWValue (cursorResponse rc) /\
           shardHostAndPort r = Some (hostAndPort rc))
        rs cursors.
Proof.
  intros opCtx exec nss readPref remotes allow rs a1 Hh Hrun Hd Hp Hperm.
  pose proof (hosts_and_parsed _ _ _ Hh Hrun Hp) as Hest.
  pose proof (cursors_of_established _ Hest) as Hall.
  assert (Hids : map rc_shardId (cursors_of rs) = map shardId rs).
  { clear - Hall. induction Hall as [|r rc rs cs Hrc _ IH]; simpl; [reflexivity|].
    now rewrite IH, (cursor_of_shardId _ _ Hrc). }
  exists (cursors_of rs). split; [|split; [|split]].
  - unfold establishCursors.
    rewrite (establish_done opCtx nss allow rs (mkFrame _ exec [] []) a1 Hrun Hd);
      [reflexivity|].
    eapply Forall_impl; [|exact Hest]. intros r Hr; now left.
  - rewrite <- (length_map rc_shardId), Hids, length_map.
    rewrite <- (length_map fst remotes), <- (length_map shardId rs).
    now apply Permutation_length.
  - now rewrite Hids.
  - eapply Forall2_impl; [|exact Hall]. intros r rc Hrc; simpl in Hrc.
    apply cursor_of_some in Hrc as (cr & hp & Hpr & Hho & ->). auto.
Qed.


Lemma first_fatal_is_raised
    opCtx exec nss readPref remotes allow pre r s a1 :
  hosts_present (sender_for opCtx exec nss readPref remotes) ->
  ars_run (sender_for opCtx exec nss readPref remotes) (pre ++ [r]) a1 ->
  Forall (collected allow) pre ->
  fatal allow r s ->
  fst (establishCursors opCtx exec nss readPref remotes allow)
    = Throws (mkDBException s).
Proof.
  intros Hh Hrun Hall Hf.
  destruct (fatal_path opCtx nss allow pre r s _ exec a1 Hh Hrun Hall Hf)
    as (post & a2 & evs & k & final & He & _).
  unfold establishCursors. now rewrite He.
Qed.

(** C2.  Once a fatal failure is observed, the error raised to the caller is
    that first fatal error, whatever the engine hands over while draining and
    whatever the executor answers, returns or throws during the clean-up. *)
Theorem establishCursors_raises_first_fatal :
  forall opCtx exec nss readPref remotes allowPartialResults pre r s a1,
    hosts_present (sender_for opCtx exec nss readPref remotes) ->
    ars_run (sender_for opCtx exec nss readPref remotes) (pre ++ [r]) a1 ->
    Forall (collected allowPartialResults) pre ->
    fatal allowPartialResults r s ->
    fst (establishCursors opCtx exec nss readPref remotes allowPartialResults)
      = Throws (mkDBException s).
Proof.
  intros opCtx exec nss readPref remotes allow pre r s a1 Hh Hrun Hall Hf.
  destruct (fatal_path opCtx nss allow pre r s _ exec a1 Hh Hrun Hall Hf)
    as (post & a2 & evs & k & final & He & _).
  unfold establishCursors. now rewrite He.
Qed.


(** C6.  After the fatal completion the next call is [stopRetrying]; the
    function then takes completions from the stopped engine until it is done,
    stores the cursor of every one that parses, and runs the clean-up on the
    list so extended. *)
Theorem drain_after_fatal :
  forall opCtx exec nss readPref remotes allowPartialResults pre r s a1,
    hosts_present (sender_for opCtx exec nss readPref remotes) ->
    ars_run (sender_for opCtx exec nss readPref remotes) (pre ++ [r]) a1 ->
    Forall (collected allowPartialResults) pre ->
    fatal allowPartialResults r s ->
    exists post a2 evs,
      let final :=
        snd (establishCursors opCtx exec nss readPref remotes allowPartialResults) in
      trace final =
        map EvNext (pre ++ [r]) ++ EvStopRetrying :: map EvNext post ++ evs /\
      Forall is_schedule evs /\
      ars_run (ars_stopRetrying a1) post a2 /\ ars_done a2 = true /\
      ars final = a2 /\
      remoteCursors final = cursors_of pre ++ cursors_of post /\
      (forall r' cr, In r' post -> parse_response r' = SWValue cr ->
         exists hp,
           shardHostAndPort r' = Some hp /\
           In (mkRemoteCursor (shardId r') hp cr) (remoteCursors final)) /\
      (exists k, scheduled_requests evs =
                 map (killCursors_request opCtx nss) (firstn k (remoteCursors final))) /\
      (schedule_threw evs = false ->
       scheduled_requests evs =
       map (killCursors_request opCtx nss) (remoteCursors final)).
Proof.
  intros opCtx exec nss readPref remotes allow pre r s a1 Hh Hrun Hall Hf.
  destruct (fatal_path opCtx nss allow pre r s _ exec a1 Hh Hrun Hall Hf)
    as (post & a2 & evs & k & final & He & Hr & Hd & Ha & Hc & Ht & Hev & Hreq & Hallk).
  exists post, a2, evs. unfold establishCursors. rewrite He. simpl.
  repeat split; eauto.
  intros r' cr Hin Hp.
  assert (Hh1 : hosts_present (ars_stopRetrying a1)).
  { destruct (hosts_present_run _ _ _ Hh Hrun) as [_ Hh1].
    apply (hosts_present_reach _ _ Hh1). constructor. constructor. }
  destruct (hosts_present_run _ _ _ Hh1 Hr) as [Hok _].
  rewrite Forall_forall in Hok.
  destruct (parsed_established r' (Hok r' Hin)) as [rc Hrc]; [now rewrite Hp|].
  pose proof Hrc as Hrc0.
  apply cursor_of_some in Hrc as (cr' & hp & Hp' & Hho & ->).
  assert (cr' = cr) by congruence. subst cr'.
  exists hp. split; [exact Hho|]. rewrite Hc. apply in_or_app. right.
  unfold cursors_of. apply in_flat_map. exists r'. split; [exact Hin|].
  rewrite Hrc0. now left.
Qed.

Lemma killCursors_request_recorded opCtx nss rc :
  cr_nss (cursorResponse rc) = nss ->
  killCursors_request opCtx nss rc = killCursors_request_as_recorded opCtx rc.
Proof. intros <-. reflexivity. Qed.

(** C7.  Every killCursors request submitted goes to the host recorded in its
    cursor and carries that cursor's id alone; the namespace it carries, and
    the database it names, are those of the call's [nss], not the namespace
    recorded in the cursor's response: the requests are the ones C7 words
    when every response names the namespace of the call.  What a submission
    returns changes neither the submissions that follow, one per cursor when
    none throws, nor the error raised; and the submissions are the last calls
    the function makes: nothing is asked of the engine or of the executor
    about them. *)
Theorem killCursors_fire_and_forget :
  forall opCtx exec nss readPref remotes allowPartialResults pre r s a1,
    hosts_present (sender_for opCtx exec nss readPref remotes) ->
    ars_run (sender_for opCtx exec nss readPref remotes) (pre ++ [r]) a1 ->
    Forall (collected allowPartialResults) pre ->
    fatal allowPartialResults r s ->
    let run := establishCursors opCtx exec nss readPref remotes allowPartialResults in
    fst run = Throws (mkDBException s) /\
    (exists k,
       Forall2
         (fun request rc =>
            target request = hostAndPort rc /\
            dbname request = ns_db nss /\
            cmdObj request =
              KillCursorsRequest_toBSON
                (mkKillCursorsRequest nss [getCursorId (cursorResponse rc)]))
         (scheduled_requests (trace (snd run)))
         (firstn k (remoteCursors (snd run)))) /\
    (schedule_threw (trace (snd run)) = false ->
     List.length (scheduled_requests (trace (snd run))) =
     List.length (remoteCursors (snd run))) /\
    (exists before evs,
       trace (snd run) = before ++ evs /\
       scheduled_requests before = [] /\ Forall is_schedule evs) /\
    (Forall (fun rc => cr_nss (cursorResponse rc) = nss) (remoteCursors (snd run)) ->
     exists k,
       scheduled_requests (trace (snd run)) =
       map (killCursors_request_as_recorded opCtx)
         (firstn k (remoteCursors (snd run)))).
Proof.
  intros opCtx exec nss readPref remotes allow pre r s a1 Hh Hrun Hall Hf run.
  destruct (fatal_path opCtx nss allow pre r s _ exec a1 Hh Hrun Hall Hf)
    as (post & a2 & evs & k & final & He & _ & _ & _ & _ & Ht & Hev & Hreq & Hallk).
  subst run. unfold establishCursors. rewrite He. simpl.
  rewrite Ht, trace_fatal_requests, trace_fatal_threw.
  split; [reflexivity | split; [|split; [|split]]].
  - exists k. rewrite Hreq. clear.
    induction (firstn k (remoteCursors final)) as [|rc l IH]; simpl;
      constructor; auto.
  - intros Hno. rewrite (Hallk Hno). apply length_map.
  - exists (map EvNext (pre ++ [r]) ++ EvStopRetrying :: map EvNext post), evs.
    repeat split; [| |exact Hev].
    + rewrite <- app_assoc. reflexivity.
    + rewrite scheduled_requests_app, scheduled_requests_next. simpl.
      apply scheduled_requests_next.
  - intros Hsame. exists k. rewrite Hreq. apply map_ext_in.
    intros rc Hin. apply killCursors_request_recorded.
    rewrite Forall_forall in Hsame. apply Hsame.
    rewrite <- (firstn_skipn k (remoteCursors final)).
    apply in_or_app. now left.
Qed.

Lemma cursors_of_length_established rs :
  Forall (fun r => exists rc, cursor_of r = Some rc) rs ->
  List.length (cursors_of rs) = List.length rs.
Proof.
  induction 1 as [|r rs [rc Hrc] _ IH]; [reflexivity|].
  rewrite (cursors_of_cons_some _ _ rs Hrc). simpl. now rewrite IH.
Qed.

Lemma cursors_of_skip_failure pre f post s :
  failure_of f = Some s ->
  cursors_of (pre ++ f :: post) = cursors_of (pre ++ post).
Proof.
  intros Hs. rewrite !cursors_of_app.
  now rewrite (cursors_of_cons_none _ post (failure_no_cursor _ _ Hs)).
Qed.

(** C4.  With [allowPartialResults] set, completions that fail with a
    retriable code are dropped and the collection goes on: the call returns
    the cursors of the other completions and raises nothing, no shard id is
    there twice, each is the id of a remote, and when exactly one completion
    fails there is one cursor less than remotes. *)
Theorem establishCursors_partial_results :
  forall opCtx exec nss readPref remotes rs a1,
    hosts_present (sender_for opCtx exec nss readPref remotes) ->
    ars_run (sender_for opCtx exec nss readPref remotes) rs a1 ->
    ars_done a1 = true ->
    (forall r s, In r rs -> failure_of r = Some s -> isRetriable (code s)) ->
    Permutation (map shardId rs) (map fst remotes) ->
    NoDup (map fst remotes) ->
    fst (establishCursors opCtx exec nss readPref remotes true)
      = Normal (cursors_of rs) /\
    NoDup (map rc_shardId (cursors_of rs)) /\
    incl (map rc_shardId (cursors_of rs)) (map fst remotes) /\
    (forall pre f post,
       rs = pre ++ f :: post ->
       isOK (parse_response f) = false ->
       Forall (fun r => isOK (parse_response r) = true) (pre ++ post) ->
       List.length (cursors_of rs) = List.length remotes - 1 /\
       cursors_of rs = cursors_of (pre ++ post) /\
       ~ In (shardId f) (map rc_shardId (cursors_of rs))).
Proof.
  intros opCtx exec nss readPref remotes rs a1 Hh Hrun Hd Hretr Hperm Hnd.
  destruct (hosts_present_run _ _ _ Hh Hrun) as [Hok _].
  assert (Hndr : NoDup (map shardId rs)).
  { eapply Permutation_NoDup; [symmetry; exact Hperm | exact Hnd]. }
  split; [|split; [|split]].
  - unfold establishCursors.
    rewrite (establish_done opCtx nss true rs (mkFrame _ exec [] []) a1 Hrun Hd);
      [reflexivity|].
    rewrite Forall_forall in *. intros r Hin.
    destruct (host_ok_cases r (Hok r Hin)) as [Hrc | [s Hs]]; [now left|].
    right. exists s. repeat split; eauto.
  - apply cursors_of_shardIds_NoDup, Hndr.
  - intros x Hin. apply cursors_of_shardIds_incl in Hin.
    eapply Permutation_in; eauto.
  - intros pre f post -> Hf Hp.
    assert (Hfs : exists s, failure_of f = Some s).
    { unfold failure_of. destruct (parse_response f) as [cr|s];
        [discriminate | now exists s]. }
    destruct Hfs as [s Hs].
    assert (Hest : Forall (fun r => exists rc, cursor_of r = Some rc) (pre ++ post)).
    { rewrite Forall_forall in *. intros r Hin.
      apply parsed_established; [|now apply Hp].
      apply Hok. apply in_app_or in Hin. apply in_or_app.
      destruct Hin; [now left | right; now right]. }
    rewrite (cursors_of_skip_failure pre f post s Hs).
    split; [|split; [reflexivity|]].
    + rewrite (cursors_of_length_established _ Hest).
      apply Permutation_length in Hperm. rewrite !length_map in Hperm.
      rewrite <- Hperm, !length_app. simpl. lia.
    + intros Hin. apply cursors_of_shardIds_incl in Hin.
      rewrite map_app in Hndr. simpl in Hndr.
      apply NoDup_remove_2 in Hndr. apply Hndr.
      now rewrite <- map_app.
Qed.

Lemma collect_body_failure allow st r a s :
  ars_next (ars st) = (r, a) -> failure_of r = Some s ->
  collect_body allow st =
  (if allow && std_find_code kAllRetriableErrors (code s)
   then Normal tt else Throws (mkDBException s), after_next st).
Proof.
  intros Hn Hs. rewrite collect_body_eq. cbv zeta. rewrite Hn. simpl.
  apply failure_of_some in Hs. rewrite Hs.
  now destruct (allow && _).
Qed.

Lemma establish_first_fatal opCtx nss allow st r a s :
  ars_done (ars st) = false -> ars_next (ars st) = (r, a) ->
  failure_of r = Some s -> ~ (allow = true /\ isRetriable (code s)) ->
  establish opCtx nss allow st =
  on_error opCtx nss (mkDBException s) (after_next st).
Proof.
  intros Hd Hn Hs Hf. unfold establish, try_catch, collect.
  unfold bind at 1. rewrite (while_unroll _ (collect_body_takes_one allow)), Hd.
  unfold bind at 1. rewrite (collect_body_failure allow st r a s Hn Hs).
  apply swallow_test_false in Hf. now rewrite Hf.
Qed.

(** C5.  A failing completion is swallowed exactly when
    [allowPartialResults] is set and its code is retriable.  Any other
    failure is thrown out of the collection loop, and the call goes on as the
    outer catch block does, which takes no account of [allowPartialResults]:
    the engine is told to stop retrying and drained, the cursors then held
    are sent killCursors, and the failure's status is what the call raises.
    So it is without the flag for every failure, and with it for a failure
    that is not retriable, the two calls then being the same. *)
Theorem failure_swallowed_iff :
  forall opCtx nss allowPartialResults st r a s,
    ars_done (ars st) = false ->
    ars_next (ars st) = (r, a) ->
    failure_of r = Some s ->
    (fst (collect_body allowPartialResults st) = Normal tt <->
     allowPartialResults = true /\ isRetriable (code s)) /\
    (~ (allowPartialResults = true /\ isRetriable (code s)) ->
     establish opCtx nss allowPartialResults st =
     on_error opCtx nss (mkDBException s) (after_next st)) /\
    establish opCtx nss false st =
      on_error opCtx nss (mkDBException s) (after_next st) /\
    (~ isRetriable (code s) ->
     establish opCtx nss true st = establish opCtx nss false st) /\
    (~ (allowPartialResults = true /\ isRetriable (code s)) ->
     fst (collect_body allowPartialResults st) = Throws (mkDBException s)) /\
    (hosts_present (ars st) ->
     ~ (allowPartialResults = true /\ isRetriable (code s)) ->
     let run := establish opCtx nss allowPartialResults st in
     fst run = Throws (mkDBException s) /\
     exists post a2 evs k,
       ars_run (ars_stopRetrying a) post a2 /\ ars_done a2 = true /\
       remoteCursors (snd run) = remoteCursors st ++ cursors_of post /\
       trace (snd run) =
         trace st ++ EvNext r :: EvStopRetrying :: map EvNext post ++ evs /\
       Forall is_schedule evs /\
       scheduled_requests evs =
         map (killCursors_request opCtx nss) (firstn k (remoteCursors (snd run))) /\
       (schedule_threw evs = false ->
        scheduled_requests evs =
          map (killCursors_request opCtx nss) (remoteCursors (snd run)))) /\
    (hosts_present (ars st) ->
     fst (establish opCtx nss false st) = Throws (mkDBException s)) /\
    (hosts_present (ars st) -> ~ isRetriable (code s) ->
     fst (establish opCtx nss true st) = Throws (mkDBException s)).
Proof.
  intros opCtx nss allow st r a s Hd Hn Hs.
  assert (Hraise : forall flag,
             hosts_present (ars st) ->
             ~ (flag = true /\ isRetriable (code s)) ->
             exists post a2 evs k st',
               establish opCtx nss flag st = (Throws (mkDBException s), st') /\
               ars_run (ars_stopRetrying a) post a2 /\ ars_done a2 = true /\
               remoteCursors st' = remoteCursors st ++ cursors_of post /\
               trace st' =
                 trace st ++ EvNext r :: EvStopRetrying :: map EvNext post ++ evs /\
               Forall is_schedule evs /\
               scheduled_requests evs =
                 map (killCursors_request opCtx nss) (firstn k (remoteCursors st')) /\
               (schedule_threw evs = false ->
                scheduled_requests evs =
                  map (killCursors_request opCtx nss) (remoteCursors st'))).
  { intros flag Hh Hf.
    rewrite (establish_first_fatal opCtx nss flag st r a s Hd Hn Hs Hf).
    destruct (hosts_present_next _ _ _ Hh Hd Hn) as [_ Hh'].
    assert (Hha : hosts_present (ars (after_next st))).
    { unfold after_next. rewrite Hn. exact Hh'. }
    destruct (on_error_run opCtx nss (mkDBException s) (after_next st) Hha)
      as (post & a2 & evs & k & st' & He & Hr & Hd2 & _ & Hc & Ht & Hev & Hreq & Hall).
    unfold after_next in Hr, Hc, Ht. rewrite Hn in Hr, Hc, Ht.
    cbn [ars set_ars log remoteCursors trace executor fst snd] in Hr, Hc, Ht.
    rewrite <- app_assoc in Ht.
    exists post, a2, evs, k, st'. repeat split; auto. }
  split; [|split; [|split; [|split; [|split; [|split; [|split]]]]]].
  - rewrite (collect_body_failure allow st r a s Hn Hs). simpl.
    rewrite <- swallow_test_true.
    destruct (allow && _); split; intros; congruence.
  - apply establish_first_fatal with (r := r) (a := a); auto.
  - apply establish_first_fatal with (r := r) (a := a); auto.
    intros [Hc _]; discriminate.
  - intros Hnr.
    rewrite !(establish_first_fatal opCtx nss _ st r a s Hd Hn Hs); auto.
    + intros [Hc _]; discriminate.
    + intros [_ Hc]; contradiction.
  - intros Hf. rewrite (collect_body_failure allow st r a s Hn Hs).
    apply swallow_test_false in Hf. now rewrite Hf.
  - intros Hh Hf run.
    destruct (Hraise allow Hh Hf)
      as (post & a2 & evs & k & st' & He & Hr & Hd2 & Hc & Ht & Hev & Hreq & Hall).
    subst run. rewrite He. cbn [fst snd].
    split; [reflexivity|]. exists post, a2, evs, k. repeat split; auto.
  - intros Hh. destruct (Hraise false Hh) as (? & ? & ? & ? & ? & He & _).
    + intros [Hc _]; discriminate.
    + now rewrite He.
  - intros Hh Hnr. destruct (Hraise true Hh) as (? & ? & ? & ? & ? & He & _).
    + intros [_ Hc]; contradiction.
    + now rewrite He.
Qed.

(** C8.  A response that fails to parse is tested as a transport failure is:
    the code of the status thrown is looked up in the same table of retriable
    codes, under the same [allowPartialResults]. *)
Theorem parse_failure_tested_as_transport_failure :
  forall allowPartialResults st r a s,
    ars_next (ars st) = (r, a) ->
    swResponse r = SWStatus s \/
    (exists reply, swResponse r = SWValue reply /\
                   parseFromBSON (data reply) = SWStatus s) ->
    collect_body allowPartialResults st =
      (if allowPartialResults && std_find_code kAllRetriableErrors (code s)
       then Normal tt else Throws (mkDBException s), after_next st) /\
    (std_find_code kAllRetriableErrors (code s) = true <-> isRetriable (code s)).
Proof.
  intros allow st r a s Hn Hfail. split; [|apply std_find_code_In].
  apply collect_body_failure with (r := r) (a := a); [exact Hn|].
  apply failure_of_some. unfold parse_response.
  destruct Hfail as [-> | (reply & -> & ->)]; reflexivity.
Qed.

(** C9.  In both loops the host of a response is dereferenced only once the
    response has parsed; when every response with a successful outcome
    carries its host, no call dereferences a missing host: the call returns
    or throws. *)
Theorem host_dereference_safe :
  forall opCtx exec nss readPref remotes allowPartialResults,
    hosts_present (sender_for opCtx exec nss readPref remotes) ->
    (forall st,
       fst (collect_body allowPartialResults st) = Undefined \/
       fst (drain_body st) = Undefined ->
       isOK (parse_response (fst (ars_next (ars st)))) = true /\
       shardHostAndPort (fst (ars_next (ars st))) = None) /\
    ((exists cursors,
        fst (establishCursors opCtx exec nss readPref remotes allowPartialResults)
          = Normal cursors) \/
     (exists ex,
        fst (establishCursors opCtx exec nss readPref remotes allowPartialResults)
          = Throws ex)).
Proof.
  intros opCtx exec nss readPref remotes allow Hh. split.
  - intros st. rewrite collect_body_eq, drain_body_eq. cbv zeta.
    destruct (parse_response _) as [cr|s];
      [destruct (shardHostAndPort _)|destruct (allow && _)];
      simpl; intros [Hu|Hu]; try discriminate; auto.
  - destruct (collect_run_cases allow _ _ (le_n _) Hh)
      as [(rs & a1 & Hrun & Hd & Hall) | (pre & r & s & a1 & Hrun & Hall & Hf)].
    + left. eexists. unfold establishCursors.
      now rewrite (establish_done opCtx nss allow rs (mkFrame _ exec [] []) a1 Hrun Hd Hall).
    + right. exists (mkDBException s).
      now apply first_fatal_is_raised with pre r a1.
Qed.

(** C10.  A completion that yields no parsed cursor response adds nothing to
    [remoteCursors], be it swallowed or fatal in the collection loop, or
    dropped in the drain loop. *)
Theorem failed_completion_adds_no_cursor :
  forall allowPartialResults st r a,
    ars_next (ars st) = (r, a) ->
    isOK (parse_response r) = false ->
    remoteCursors (snd (collect_body allowPartialResults st)) = remoteCursors st /\
    remoteCursors (snd (drain_body st)) = remoteCursors st.
Proof.
  intros allow st r a Hn Hp.
  rewrite collect_body_eq, drain_body_eq. cbv zeta. rewrite Hn. simpl.
  destruct (parse_response r) as [cr|s]; [discriminate|].
  destruct (allow && _); split; reflexivity.
Qed.

End Claims.

(** * The scripted cluster at work *)

Module ScriptedFacts.
Import Scripted.
Local Open Scope string_scope.
Local Open Scope Z_scope.
Local Open Scope list_scope.

Lemma reach_hosts (a a1 : Sender) :
  forallb host_okb (queue a) = true -> ars_reach a a1 ->
  forallb host_okb (queue a1) = true.
Proof.
  intros Ha Hr. induction Hr as [|a1 Hr IH Hd|a1 Hr IH]; auto.
  destruct a1 as [st [|r q]]; [discriminate Hd|].
  simpl in *. now apply andb_true_iff in IH.
Qed.

Lemma scripted_hosts_present (a : Sender) :
  forallb host_okb (queue a) = true -> hosts_present a.
Proof.
  intros Ha a1 Hr Hd Hok. pose proof (reach_hosts a a1 Ha Hr) as H1.
  destruct a1 as [st [|r q]]; [discriminate Hd|].
  simpl in *. apply andb_true_iff in H1 as [H1 _].
  unfold host_okb in H1. rewrite Hok in H1. simpl in H1.
  destruct (shardHostAndPort r); [discriminate | discriminate H1].
Qed.

Lemma scripted_run (q : list Response) (st : bool) :
  ars_run (mkSender st q) q (mkSender st []).
Proof.
  induction q as [|r q IH]; [constructor|].
  apply ars_run_cons with (a' := mkSender st q); [reflexivity | reflexivity | exact IH].
Qed.

Lemma scripted_run_prefix (pre post : list Response) (st : bool) :
  ars_run (mkSender st (pre ++ post)) pre (mkSender st post).
Proof.
  induction pre as [|r pre IH]; [constructor|].
  apply ars_run_cons with (a' := mkSender st (pre ++ post));
    [reflexivity | reflexivity | exact IH].
Qed.


Lemma one_nons_hosts exec :
  hosts_present (sender_for 7%nat exec test_nss tt one_nons).
Proof. apply scripted_hosts_present. reflexivity. Qed.

Lemma one_nons_run exec :
  ars_run (sender_for 7%nat exec test_nss tt one_nons)
    ([shard1_reply] ++ [nons_reply]) (mkSender false [shard3_reply; slow_reply]).
Proof. exact (scripted_run_prefix [shard1_reply; nons_reply] [shard3_reply; slow_reply] false). Qed.

Lemma one_nons_collected : Forall (collected true) [shard1_reply].
Proof. constructor; [|constructor]. left. eexists. reflexivity. Qed.

Lemma one_nons_fatal : fatal true nons_reply namespace_not_found.
Proof. split; [reflexivity|]. apply swallow_test_false. reflexivity. Qed.

Lemma establishCursors_all_established_witness :
  exists cursors,
    fst (establishCursors 7%nat [] test_nss tt all_up false) = Normal cursors /\
    List.length cursors = 3%nat /\
    Permutation (map rc_shardId cursors) ["shard1"; "shard2"; "shard3"].
Proof.
  destruct (@establishCursors_all_established types cluster 7%nat [] test_nss tt all_up false
              (completions all_up) (mkSender false []))
    as (cursors & H1 & H2 & H3 & _).
  - apply scripted_hosts_present. reflexivity.
  - exact (scripted_run (completions all_up) false).
  - reflexivity.
  - repeat constructor.
  - apply Permutation_sym. exact (Permutation_rev ["shard1"; "shard2"; "shard3"]).
  - exists cursors. repeat split; assumption.
Defined.

Lemma establishCursors_raises_first_fatal_witness :
  fst (establishCursors 7%nat throwing test_nss tt one_nons true)
    = Throws (mkDBException namespace_not_found).
Proof.
  exact (@establishCursors_raises_first_fatal types cluster 7%nat throwing test_nss tt one_nons
           true [shard1_reply] nons_reply namespace_not_found
           (mkSender false [shard3_reply; slow_reply])
           (one_nons_hosts throwing) (one_nons_run throwing)
           one_nons_collected one_nons_fatal).
Defined.



Lemma establishCursors_partial_results_witness :
  fst (establishCursors 7%nat [] test_nss tt one_slow true)
    = Normal (cursors_of (completions one_slow)) /\
  List.length (cursors_of (completions one_slow)) = 2%nat.
Proof.
  destruct (@establishCursors_partial_results types cluster 7%nat [] test_nss tt one_slow
              (completions one_slow) (mkSender false []))
    as (H1 & _ & _ & H4).
  - apply scripted_hosts_present. reflexivity.
  - exact (scripted_run (completions one_slow) false).
  - reflexivity.
  - intros r s [<-|[<-|[<-|[]]]] Hs; vm_compute in Hs; try discriminate.
    injection Hs as <-. apply std_find_code_In. reflexivity.
  - apply Permutation_sym. exact (Permutation_rev ["shard1"; "slow"; "shard3"]).
  - repeat constructor; simpl; intuition discriminate.
  - split; [exact H1|].
    destruct (H4 [shard3_reply] slow_reply [shard1_reply]) as (Hlen & _).
    + reflexivity.
    + reflexivity.
    + repeat constructor.
    + exact Hlen.
Defined.

Lemma failure_swallowed_iff_witness :
  (fst (collect_body true (awaiting slow_reply)) = Normal tt <->
   true = true /\ isRetriable NetworkTimeout) /\
  fst (establish 7%nat test_nss false (awaiting slow_reply))
    = Throws (mkDBException (mkStatus NetworkTimeout "timed out")) /\
  fst (establish 7%nat test_nss true (awaiting nons_reply))
    = Throws (mkDBException namespace_not_found).
Proof.
  split; [|split].
  - exact (proj1 (@failure_swallowed_iff types cluster 7%nat test_nss true
                    (awaiting slow_reply) slow_reply (mkSender false [])
                    (mkStatus NetworkTimeout "timed out")
                    eq_refl eq_refl eq_refl)).
  - refine (proj1 (proj1 (proj2 (proj2 (proj2 (proj2 (proj2
              (@failure_swallowed_iff types cluster 7%nat test_nss false
                 (awaiting slow_reply) slow_reply (mkSender false [])
                 (mkStatus NetworkTimeout "timed out")
                 eq_refl eq_refl eq_refl)))))) _ _)).
    + apply scripted_hosts_present. reflexivity.
    + intros [Hc _]. discriminate Hc.
  - refine (proj1 (proj1 (proj2 (proj2 (proj2 (proj2 (proj2
              (@failure_swallowed_iff types cluster 7%nat test_nss true
                 (awaiting nons_reply) nons_reply (mkSender false [])
                 namespace_not_found
                 eq_refl eq_refl eq_refl)))))) _ _)).
    + apply scripted_hosts_present. reflexivity.
    + apply swallow_test_false. reflexivity.
Defined.

Lemma drain_after_fatal_witness :
  exists post a2 evs,
    trace (snd (establishCursors 7%nat rejecting test_nss tt one_nons true)) =
      map EvNext ([shard1_reply] ++ [nons_reply]) ++
      EvStopRetrying :: map EvNext post ++ evs /\
    ars_done a2 = true /\
    remoteCursors (snd (establishCursors 7%nat rejecting test_nss tt one_nons true)) =
      cursors_of [shard1_reply] ++ cursors_of post.
Proof.
  destruct (@drain_after_fatal types cluster 7%nat rejecting test_nss tt one_nons true
              [shard1_reply] nons_reply namespace_not_found
              (mkSender false [shard3_reply; slow_reply])
              (one_nons_hosts rejecting) (one_nons_run rejecting)
              one_nons_collected one_nons_fatal)
    as (post & a2 & evs & Ht & _ & _ & Hd & _ & Hc & _).
  exists post, a2, evs. repeat split; assumption.
Defined.

Lemma killCursors_fire_and_forget_witness :
  fst (establishCursors 7%nat rejecting test_nss tt one_nons true)
    = Throws (mkDBException namespace_not_found) /\
  List.length
    (scheduled_requests
       (trace (snd (establishCursors 7%nat rejecting test_nss tt one_nons true))))
  = List.length
      (remoteCursors (snd (establishCursors 7%nat rejecting test_nss tt one_nons true))).
Proof.
  destruct (@killCursors_fire_and_forget types cluster 7%nat rejecting test_nss tt one_nons true
              [shard1_reply] nons_reply namespace_not_found
              (mkSender false [shard3_reply; slow_reply])
              (one_nons_hosts rejecting) (one_nons_run rejecting)
              one_nons_collected one_nons_fatal)
    as (H1 & _ & H3 & _).
  split; [exact H1 | apply H3; reflexivity].
Defined.

(** C7, as first stated, fails: the call is on the namespace of a view, the
    two cursors established are on the collection under it, and the
    killCursors commands name the view, the call's namespace, not the
    namespace recorded in the cursors. *)
Lemma killCursors_names_the_namespace_of_the_call :
  fst (establishCursors 7%nat [] view_nss tt one_nons true)
    = Throws (mkDBException namespace_not_found) /\
  map (fun rc => cr_nss (cursorResponse rc))
    (remoteCursors (snd (establishCursors 7%nat [] view_nss tt one_nons true)))
    = [test_nss; test_nss] /\
  map cmdObj
    (scheduled_requests
       (trace (snd (establishCursors 7%nat [] view_nss tt one_nons true))))
    = [KillCursorsCmd view_nss [101]; KillCursorsCmd view_nss [103]] /\
  scheduled_requests
    (trace (snd (establishCursors 7%nat [] view_nss tt one_nons true)))
    <> map (killCursors_request_as_recorded 7%nat)
         (remoteCursors (snd (establishCursors 7%nat [] view_nss tt one_nons true))).
Proof.
  repeat split; try reflexivity.
  vm_compute. discriminate.
Qed.

Lemma parse_failure_tested_as_transport_failure_witness :
  collect_body true (awaiting stepdown_reply)
    = (Normal tt, after_next (awaiting stepdown_reply)) /\
  collect_body true (awaiting slow_reply)
    = (Normal tt, after_next (awaiting slow_reply)).
Proof.
  split.
  - exact (proj1 (@parse_failure_tested_as_transport_failure types cluster true
                    (awaiting stepdown_reply) stepdown_reply (mkSender false [])
                    (mkStatus PrimarySteppedDown "command failed") eq_refl
                    (or_intror
                       (ex_intro _ (mkRemoteCommandResponse (CommandError PrimarySteppedDown))
                          (conj eq_refl eq_refl))))).
  - exact (proj1 (@parse_failure_tested_as_transport_failure types cluster true
                    (awaiting slow_reply) slow_reply (mkSender false [])
                    (mkStatus NetworkTimeout "timed out") eq_refl
                    (or_introl eq_refl))).
Defined.

Lemma host_dereference_safe_witness :
  (exists cursors,
     fst (establishCursors 7%nat [] test_nss tt all_up false) = Normal cursors) \/
  (exists ex,
     fst (establishCursors 7%nat [] test_nss tt all_up false) = Throws ex).
Proof.
  refine (proj2 (@host_dereference_safe types cluster 7%nat [] test_nss tt all_up false _)).
  apply scripted_hosts_present. reflexivity.
Defined.

Lemma failed_completion_adds_no_cursor_witness :
  remoteCursors (snd (collect_body true (awaiting slow_reply))) = [] /\
  remoteCursors (snd (drain_body (awaiting slow_reply))) = [].
Proof.
  exact (@failed_completion_adds_no_cursor types cluster true (awaiting slow_reply) slow_reply
           (mkSender false []) eq_refl eq_refl).
Defined.

End ScriptedFacts.

(** * Further properties of establishCursors *)

Section FurtherProperties.
Context `{Collaborators}.

(** ** How a call ends *)

Lemma stops_app tr1 tr2 : stops (tr1 ++ tr2) = stops tr1 + stops tr2.
Proof.
  induction tr1 as [|[r| |rq o] tr1 IH]; simpl; auto.
Qed.

Lemma stops_next rs : stops (map EvNext rs) = 0.
Proof. induction rs; simpl; auto. Qed.

Lemma stops_schedule evs : Forall is_schedule evs -> stops evs = 0.
Proof.
  induction 1 as [|[r| |rq o] evs Hev _ IH]; simpl; auto; contradiction.
Qed.

Lemma collected_unflagged r :
  collected false r -> exists rc, cursor_of r = Some rc.
Proof. intros [Hrc | (s & _ & Hc & _)]; [exact Hrc | discriminate]. Qed.

Lemma failure_origin r s :
  failure_of r = Some s ->
  swResponse r = SWStatus s \/
  (exists reply, swResponse r = SWValue reply /\
                 parseFromBSON (data reply) = SWStatus s).
Proof.
  intros Hs. apply failure_of_some in Hs. unfold parse_response in Hs.
  destruct (swResponse r) as [reply|s0]; [right; eauto | left; congruence].
Qed.

(** When the call returns, it has taken completions until the engine was
    done and got past each of them; the list returned is that of the cursors
    they establish, in the order they came; nothing but [next] was called:
    no [stopRetrying], no killCursors, the executor is as it was.  Without
    [allowPartialResults] every completion established a cursor. *)
Theorem normal_return_accounts_for_every_completion :
  forall opCtx exec nss readPref remotes allowPartialResults cursors final,
    hosts_present (sender_for opCtx exec nss readPref remotes) ->
    establishCursors opCtx exec nss readPref remotes allowPartialResults
      = (Normal cursors, final) ->
    exists rs,
      ars_run (sender_for opCtx exec nss readPref remotes) rs (ars final) /\
      ars_done (ars final) = true /\
      Forall (collected allowPartialResults) rs /\
      cursors = cursors_of rs /\
      remoteCursors final = cursors /\
      trace final = map EvNext rs /\
      executor final = exec /\
      (allowPartialResults = false ->
       Forall2 (fun r rc => cursor_of r = Some rc) rs cursors).
Proof.
  intros opCtx exec nss readPref remotes allow cursors final Hh Heq.
  unfold establishCursors in Heq.
  destruct (collect_run_cases allow _ _ (le_n _) Hh)
    as [(rs & a1 & Hrun & Hd & Hall) | (pre & r & s & a1 & Hrun & Hall & Hf)].
  - rewrite (establish_done opCtx nss allow rs (mkFrame _ exec [] []) a1 Hrun Hd Hall)
      in Heq.
    injection Heq as <- <-. simpl. exists rs. repeat split; auto.
    intros ->. apply cursors_of_established.
    eapply Forall_impl; [|exact Hall]. intros r. apply collected_unflagged.
  - destruct (fatal_path opCtx nss allow pre r s _ exec a1 Hh Hrun Hall Hf)
      as (post & a2 & evs & k & final' & He & _).
    rewrite He in Heq. discriminate.
Qed.

(** When the call throws, what it throws is the status of one completion of
    the collection loop, a transport error or a parse error, that was not to
    be swallowed, the completions before it having been got past; it is never
    an error of the clean-up.  By then [stopRetrying] was called once and the
    engine is done. *)
Theorem thrown_error_is_a_completion_failure :
  forall opCtx exec nss readPref remotes allowPartialResults ex final,
    hosts_present (sender_for opCtx exec nss readPref remotes) ->
    establishCursors opCtx exec nss readPref remotes allowPartialResults
      = (Throws ex, final) ->
    exists pre r s a1,
      ars_run (sender_for opCtx exec nss readPref remotes) (pre ++ [r]) a1 /\
      Forall (collected allowPartialResults) pre /\
      fatal allowPartialResults r s /\
      ex = mkDBException s /\
      (swResponse r = SWStatus s \/
       exists reply, swResponse r = SWValue reply /\
                     parseFromBSON (data reply) = SWStatus s) /\
      stops (trace final) = 1 /\
      ars_done (ars final) = true.
Proof.
  intros opCtx exec nss readPref remotes allow ex final Hh Heq.
  unfold establishCursors in Heq.
  destruct (collect_run_cases allow _ _ (le_n _) Hh)
    as [(rs & a1 & Hrun & Hd & Hall) | (pre & r & s & a1 & Hrun & Hall & Hf)].
  - rewrite (establish_done opCtx nss allow rs (mkFrame _ exec [] []) a1 Hrun Hd Hall)
      in Heq.
    discriminate.
  - destruct (fatal_path opCtx nss allow pre r s _ exec a1 Hh Hrun Hall Hf)
      as (post & a2 & evs & k & final' & He & _ & Hd & Ha & _ & Ht & Hev & _).
    rewrite He in Heq. injection Heq as <- <-.
    exists pre, r, s, a1. repeat split; auto; try apply Hf.
    + apply failure_origin, Hf.
    + rewrite Ht, stops_app, stops_next. simpl.
      now rewrite stops_app, stops_next, (stops_schedule _ Hev).
    + now rewrite Ha.
Qed.

(** ** When the flag does not matter *)

Lemma ars_run_last a pre r a1 :
  ars_run a (pre ++ [r]) a1 ->
  exists a', ars_reach a a' /\ ars_done a' = false /\ ars_next a' = (r, a1).
Proof.
  intros Hrun. apply ars_run_app_inv in Hrun as (a' & Hpre & Hlast).
  inversion Hlast as [|? ? a'' ? ? Hd Hn Hnil]; subst. inversion Hnil; subst.
  exists a'. split; [now apply ars_run_reach with pre | auto].
Qed.

(** When no completion of the engine fails with a retriable code, the call
    does the same with and without [allowPartialResults]: same outcome, same
    calls. *)
Theorem flag_matters_only_for_retriable_failures :
  forall opCtx exec nss readPref remotes,
    hosts_present (sender_for opCtx exec nss readPref remotes) ->
    no_retriable_failure (sender_for opCtx exec nss readPref remotes) ->
    establishCursors opCtx exec nss readPref remotes true =
    establishCursors opCtx exec nss readPref remotes false.
Proof.
  intros opCtx exec nss readPref remotes Hh Hnr. unfold establishCursors.
  assert (Hup : forall rs, Forall (collected false) rs -> Forall (collected true) rs).
  { intros rs Hall. eapply Forall_impl; [|exact Hall].
    intros r Hr. left. now apply collected_unflagged. }
  destruct (collect_run_cases false _ _ (le_n _) Hh)
    as [(rs & a1 & Hrun & Hd & Hall) | (pre & r & s & a1 & Hrun & Hall & Hf)].
  - rewrite (establish_done opCtx nss false rs (mkFrame _ exec [] []) a1 Hrun Hd Hall).
    now rewrite (establish_done opCtx nss true rs (mkFrame _ exec [] []) a1 Hrun Hd
                   (Hup rs Hall)).
  - assert (Hf' : fatal true r s).
    { split; [apply Hf|]. intros [_ Hr].
      destruct (ars_run_last _ _ _ _ Hrun) as (a' & Hreach & Hd & Hn).
      apply (Hnr a' s Hreach Hd); [|exact Hr]. rewrite Hn. apply Hf. }
    rewrite (establish_fatal opCtx nss false pre r s (mkFrame _ exec [] []) a1 Hrun Hall Hf).
    now rewrite (establish_fatal opCtx nss true pre r s (mkFrame _ exec [] []) a1 Hrun
                   (Hup pre Hall) Hf').
Qed.

(** ** A response that parses and names no host *)

Lemma cursor_of_hostless r : shardHostAndPort r = None -> cursor_of r = None.
Proof.
  intros Hh. unfold cursor_of. rewrite Hh. now destruct (parse_response r).
Qed.

Lemma after_responses_hostless rs r a st :
  shardHostAndPort r = None ->
  remoteCursors (after_responses (rs ++ [r]) a st) = remoteCursors st ++ cursors_of rs.
Proof.
  intros Hh. simpl. rewrite cursors_of_app.
  rewrite (cursors_of_cons_none r [] (cursor_of_hostless r Hh)). simpl.
  now rewrite app_nil_r.
Qed.

Lemma body_hostless allow st r a cr :
  ars_next (ars st) = (r, a) -> parse_response r = SWValue cr ->
  shardHostAndPort r = None ->
  collect_body allow st = (Undefined, after_responses [r] a st) /\
  drain_body st = (Undefined, after_responses [r] a st).
Proof.
  intros Hn Hp Hh. rewrite collect_body_eq, drain_body_eq. cbv zeta.
  unfold after_next, after_responses. rewrite Hn. simpl. rewrite Hp, Hh.
  unfold cursors_of. simpl. rewrite (cursor_of_hostless r Hh).
  unfold log, set_ars. simpl. now rewrite app_nil_r.
Qed.

(** The contract on hosts is needed.  When a completion of the collection
    loop parses and names no host, the completions before it having been got
    past, the call is undefined, with or without [allowPartialResults]; up
    to then it has called nothing but [next], and the cursors it holds have
    been sent no killCursors. *)
Theorem hostless_response_undefined :
  forall opCtx nss allowPartialResults a exec pre r cr a1,
    ars_run a (pre ++ [r]) a1 ->
    Forall (collected allowPartialResults) pre ->
    parse_response r = SWValue cr ->
    shardHostAndPort r = None ->
    let run := establish opCtx nss allowPartialResults (mkFrame a exec [] []) in
    fst run = Undefined /\
    trace (snd run) = map EvNext (pre ++ [r]) /\
    remoteCursors (snd run) = cursors_of pre.
Proof.
  intros opCtx nss allow a exec pre r cr a1 Hrun Hall Hp Hh run.
  apply ars_run_app_inv in Hrun as (a0 & Hpre & Hlast).
  inversion Hlast as [|? ? a' ? ? Hd Hn Hnil]; subst.
  inversion Hnil; subst.
  assert (He : establish opCtx nss allow (mkFrame a exec [] []) =
               (Undefined, after_responses (pre ++ [r]) a1 (mkFrame a exec [] []))).
  { unfold establish, try_catch, collect. unfold bind at 1.
    rewrite (collect_loop_run allow pre (mkFrame a exec [] []) a0 Hpre Hall).
    rewrite (while_unroll _ (collect_body_takes_one allow)). simpl. rewrite Hd.
    unfold bind at 1.
    rewrite (proj1 (body_hostless allow (after_responses pre a0 (mkFrame a exec [] []))
                      r a1 cr Hn Hp Hh)).
    now rewrite after_responses_app. }
  subst run. rewrite He. repeat split.
  cbn [snd]. apply (after_responses_hostless pre r a1 (mkFrame a exec [] []) Hh).
Qed.

Lemma drain_loop_prefix post : forall st a2,
  ars_run (ars st) post a2 -> Forall host_ok post ->
  while_ars_not_done drain_body st =
  while_ars_not_done drain_body (after_responses post a2 st).
Proof.
  induction post as [|r post IH]; intros st a2 Hrun Hok.
  - inversion Hrun; subst. rewrite after_responses_nil. now destruct st.
  - inversion Hrun as [|? ? a' ? ? Hd Hn Hrest]; subst.
    inversion Hok as [|? ? Hr Hrs]; subst.
    rewrite (while_unroll _ drain_body_takes_one), Hd.
    unfold bind. rewrite (drain_body_host_ok _ _ _ Hn Hr).
    rewrite (IH (after_responses [r] a' st) a2 Hrest Hrs).
    now rewrite after_responses_cons.
Qed.

(** The same in the drain loop, where it costs the error: when a response
    taken after the fatal failure parses and names no host, the call is
    undefined instead of raising the first fatal error, and up to then no
    killCursors has been sent. *)
Theorem hostless_response_while_draining :
  forall opCtx nss allowPartialResults a exec pre r s a1 post h cr a2,
    ars_run a (pre ++ [r]) a1 ->
    Forall (collected allowPartialResults) pre ->
    fatal allowPartialResults r s ->
    ars_run (ars_stopRetrying a1) (post ++ [h]) a2 ->
    Forall host_ok post ->
    parse_response h = SWValue cr ->
    shardHostAndPort h = None ->
    let run := establish opCtx nss allowPartialResults (mkFrame a exec [] []) in
    fst run = Undefined /\
    scheduled_requests (trace (snd run)) = [] /\
    remoteCursors (snd run) = cursors_of pre ++ cursors_of post.
Proof.
  intros opCtx nss allow a exec pre r s a1 post h cr a2
    Hrun Hall Hf Hdrain Hok Hp Hh run.
  apply ars_run_app_inv in Hdrain as (a3 & Hpost & Hlast).
  inversion Hlast as [|? ? a' ? ? Hd Hn Hnil]; subst.
  inversion Hnil; subst.
  set (st1 := after_responses (pre ++ [r]) a1 (mkFrame a exec [] [])).
  set (st2 := log EvStopRetrying (set_ars (ars_stopRetrying a1) st1)).
  assert (He : establish opCtx nss allow (mkFrame a exec [] []) =
               (Undefined, after_responses (post ++ [h]) a2 st2)).
  { rewrite (establish_fatal opCtx nss allow pre r s (mkFrame a exec [] []) a1
               Hrun Hall Hf). fold st1.
    unfold on_error, cleanup_try, bind at 1, try_catch.
    unfold bind at 1, stopRetrying, modify.
    change (log EvStopRetrying (set_ars (ars_stopRetrying (ars st1)) st1)) with st2.
    unfold bind at 1.
    rewrite (drain_loop_prefix post st2 a3 Hpost Hok).
    rewrite (while_unroll _ drain_body_takes_one). simpl. rewrite Hd.
    unfold bind at 1.
    rewrite (proj2 (body_hostless allow (after_responses post a3 st2) h a2 cr Hn Hp Hh)).
    now rewrite after_responses_app. }
  subst run. rewrite He. split; [reflexivity | split].
  - simpl. rewrite !scheduled_requests_app, !scheduled_requests_next. reflexivity.
  - cbn [snd]. rewrite (after_responses_hostless post h a2 st2 Hh). simpl.
    now rewrite (cursors_of_fatal pre r s (proj1 Hf)).
Qed.

(** ** What holds at every exit *)

Lemma holds_after_bind {A B} (P R Q : Frame -> Prop) (m : M Frame A) (k : A -> M Frame B) :
  holds_after P m R -> (forall a, holds_after R (k a) Q) ->
  (forall st, R st -> Q st) ->
  holds_after P (bind m k) Q.
Proof.
  intros Hm Hk Himp st HP. specialize (Hm st HP). unfold bind.
  destruct (m st) as [[a|ex| |] st']; simpl in *; auto. now apply Hk.
Qed.

Lemma holds_after_try_catch {A} (P R Q : Frame -> Prop) (m : M Frame A) h :
  holds_after P m R -> (forall ex, holds_after R (h ex) Q) ->
  (forall st, R st -> Q st) ->
  holds_after P (try_catch m h) Q.
Proof.
  intros Hm Hh Himp st HP. specialize (Hm st HP). unfold try_catch.
  destruct (m st) as [[a|ex| |] st']; simpl in *; auto. now apply Hh.
Qed.

Lemma holds_after_while (I : Frame -> Prop) body fuel :
  holds_after I body I -> holds_after I (while_not_done fuel body) I.
Proof.
  intros Hb. induction fuel as [|fuel IH]; intros st HI; simpl;
    destruct (ars_done (ars st)); simpl; auto.
  apply (holds_after_bind I I I body (fun _ => while_not_done fuel body)); auto.
Qed.

Lemma responses_taken_app tr1 tr2 :
  responses_taken (tr1 ++ tr2) = responses_taken tr1 ++ responses_taken tr2.
Proof.
  induction tr1 as [|[r| |rq o] tr1 IH]; simpl; auto. now rewrite IH.
Qed.

Lemma responses_taken_schedule evs :
  Forall is_schedule evs -> responses_taken evs = [].
Proof.
  induction 1 as [|[r| |rq o] evs Hev _ IH]; simpl; auto; contradiction.
Qed.

Lemma collecting_after_next st l :
  collecting st ->
  cursors_of [fst (ars_next (ars st))] = l ->
  collecting
    (mkFrame (snd (ars_next (ars st))) (executor st) (remoteCursors st ++ l)
       (trace st ++ [EvNext (fst (ars_next (ars st)))])).
Proof.
  intros [Hc Hs] Hl. split; cbn [remoteCursors trace].
  - rewrite responses_taken_app, cursors_of_app, <- Hc.
    change (responses_taken [EvNext (fst (ars_next (ars st)))])
      with [fst (ars_next (ars st))].
    now rewrite Hl.
  - rewrite scheduled_requests_app, Hs. reflexivity.
Qed.

Lemma collecting_bodies allow :
  holds_after collecting (collect_body allow) collecting /\
  holds_after collecting drain_body collecting.
Proof.
  split; intros st Hst; [rewrite collect_body_eq | rewrite drain_body_eq];
    cbv zeta; unfold after_next, push_cursor, log, set_ars;
    pose proof (collecting_after_next st) as Hnext;
    unfold cursors_of, cursor_of in Hnext; simpl in Hnext;
    destruct (parse_response (fst (ars_next (ars st)))) as [cr|s];
    try destruct (shardHostAndPort (fst (ars_next (ars st)))) as [hp|];
    try destruct (allow && _); simpl;
    try (specialize (Hnext _ Hst eq_refl); simpl in Hnext;
         rewrite ?app_nil_r in Hnext; exact Hnext).
Qed.

Lemma collecting_loop body :
  holds_after collecting body collecting ->
  holds_after collecting (while_ars_not_done body) collecting.
Proof.
  intros Hb st Hst. unfold while_ars_not_done. now apply holds_after_while.
Qed.

Lemma collecting_accounted opCtx nss st :
  collecting st -> accounted opCtx nss st.
Proof. intros [Hc Hs]. split; [exact Hc|]. exists 0. now rewrite Hs. Qed.

Lemma cleanup_accounted opCtx nss :
  holds_after collecting (cleanup_try opCtx nss) (accounted opCtx nss).
Proof.
  unfold cleanup_try.
  apply holds_after_bind with (R := collecting);
    [| |apply collecting_accounted].
  { intros st [Hc Hs]. unfold stopRetrying, modify, log, set_ars. split; simpl.
    - rewrite responses_taken_app. simpl. now rewrite app_nil_r.
    - rewrite scheduled_requests_app, Hs. reflexivity. }
  intros _.
  apply holds_after_bind with (R := collecting);
    [apply collecting_loop, (collecting_bodies true) | |apply collecting_accounted].
  intros _ st [Hc Hs]. unfold bind, gets.
  destruct (schedule_killCursors_run opCtx nss (remoteCursors st) st)
    as (evs & k & e & Hst & Hev & Hreq & _).
  rewrite Hst. split; simpl.
  - now rewrite responses_taken_app, (responses_taken_schedule _ Hev), app_nil_r.
  - exists k. now rewrite scheduled_requests_app, Hs.
Qed.

(** At every exit of the call, be it a return, a throw or the dereference of
    a missing host, and whatever the engine and the executor do: the cursors
    held are exactly those of the responses taken from the engine, in the
    order taken, and the requests submitted to the executor are the
    killCursors requests of the first of these cursors, in their order.  So
    no cursor is made up, none is sent two killCursors, and nothing else is
    ever submitted. *)
Theorem cursors_and_submissions_accounted :
  forall opCtx exec nss readPref remotes allowPartialResults,
    accounted opCtx nss
      (snd (establishCursors opCtx exec nss readPref remotes allowPartialResults)).
Proof.
  intros opCtx exec nss readPref remotes allow. unfold establishCursors.
  assert (Hinit : collecting
            (mkFrame (sender_for opCtx exec nss readPref remotes) exec [] []))
    by (split; reflexivity).
  revert Hinit. generalize (mkFrame (sender_for opCtx exec nss readPref remotes) exec [] []).
  change (holds_after collecting (establish opCtx nss allow) (accounted opCtx nss)).
  unfold establish.
  apply holds_after_try_catch with (R := collecting);
    [| |apply collecting_accounted].
  - unfold collect.
    apply holds_after_bind with (R := collecting); auto.
    + apply collecting_loop, (collecting_bodies allow).
    + intros _ st Hst. exact Hst.
  - intros ex. unfold on_error.
    apply holds_after_bind with (R := accounted opCtx nss); auto.
    + apply holds_after_try_catch with (R := accounted opCtx nss); auto.
      * apply cleanup_accounted.
      * intros _ st Hst. exact Hst.
    + intros _ st Hst. exact Hst.
Qed.

End FurtherProperties.

(** * The scripted cluster, further *)

Module ScriptedMoreFacts.
Import Scripted ScriptedMore ScriptedFacts.
Local Open Scope string_scope.
Local Open Scope Z_scope.
Local Open Scope list_scope.

Lemma reach_not_retriable (a a1 : Sender) :
  forallb not_retriableb (queue a) = true -> ars_reach a a1 ->
  forallb not_retriableb (queue a1) = true.
Proof.
  intros Ha Hr. induction Hr as [|a1 Hr IH Hd|a1 Hr IH]; auto.
  destruct a1 as [st [|r q]]; [discriminate Hd|].
  simpl in *. now apply andb_true_iff in IH.
Qed.

Lemma scripted_no_retriable_failure (a : Sender) :
  forallb not_retriableb (queue a) = true -> no_retriable_failure a.
Proof.
  intros Ha a1 s Hr Hd Hs Hret.
  pose proof (reach_not_retriable a a1 Ha Hr) as H1.
  destruct a1 as [st [|r q]]; [discriminate Hd|].
  simpl in *. apply andb_true_iff in H1 as [H1 _].
  unfold not_retriableb in H1. rewrite Hs in H1.
  apply std_find_code_In in Hret.
  change (kAllRetriableErrors) with retriable in Hret.
  rewrite Hret in H1. discriminate.
Qed.

Lemma normal_return_accounts_for_every_completion_witness :
  exists rs,
    trace (snd (establishCursors 7%nat rejecting test_nss tt one_slow true))
      = map EvNext rs /\
    executor (snd (establishCursors 7%nat rejecting test_nss tt one_slow true))
      = rejecting.
Proof.
  destruct (@normal_return_accounts_for_every_completion types cluster
              7%nat rejecting test_nss tt one_slow true
              (cursors_of (completions one_slow))
              (snd (@establishCursors types cluster 7%nat rejecting test_nss tt one_slow true)))
    as (rs & _ & _ & _ & _ & _ & Ht & He & _).
  - apply scripted_hosts_present. reflexivity.
  - reflexivity.
  - exists rs. split; assumption.
Defined.

Lemma thrown_error_is_a_completion_failure_witness :
  exists r,
    swResponse r = SWStatus namespace_not_found \/
    exists reply, swResponse r = SWValue reply /\
                  parseFromBSON (data reply) = SWStatus namespace_not_found.
Proof.
  destruct (@thrown_error_is_a_completion_failure types cluster
              7%nat throwing test_nss tt one_nons true
              (mkDBException namespace_not_found)
              (snd (@establishCursors types cluster 7%nat throwing test_nss tt one_nons true)))
    as (pre & r & s & a1 & _ & _ & _ & Hex & Hor & _).
  - apply scripted_hosts_present. reflexivity.
  - reflexivity.
  - injection Hex as <-. exists r. exact Hor.
Defined.

Lemma flag_matters_only_for_retriable_failures_witness :
  establishCursors 7%nat throwing test_nss tt nons_between true =
  establishCursors 7%nat throwing test_nss tt nons_between false.
Proof.
  apply (@flag_matters_only_for_retriable_failures types cluster).
  - apply scripted_hosts_present. reflexivity.
  - apply scripted_no_retriable_failure. reflexivity.
Defined.

Lemma hostless_response_undefined_witness :
  fst (establish 7%nat test_nss true
         (mkFrame (mkSender false [shard1_reply; hostless_reply]) rejecting [] []))
    = Undefined.
Proof.
  refine (proj1 (@hostless_response_undefined types cluster 7%nat test_nss true
                   (mkSender false [shard1_reply; hostless_reply]) rejecting
                   [shard1_reply] hostless_reply
                   (mkCursorResponse test_nss 109 []) (mkSender false [])
                   _ _ eq_refl eq_refl)).
  - exact (scripted_run [shard1_reply; hostless_reply] false).
  - exact one_nons_collected.
Defined.

Lemma hostless_response_while_draining_witness :
  fst (establish 7%nat test_nss true
         (mkFrame (mkSender false [shard1_reply; nons_reply; shard3_reply; hostless_reply])
            rejecting [] []))
    = Undefined.
Proof.
  refine (proj1 (@hostless_response_while_draining types cluster 7%nat test_nss true
                   (mkSender false [shard1_reply; nons_reply; shard3_reply; hostless_reply])
                   rejecting [shard1_reply] nons_reply namespace_not_found
                   (mkSender false [shard3_reply; hostless_reply])
                   [shard3_reply] hostless_reply
                   (mkCursorResponse test_nss 109 []) (mkSender true [])
                   _ one_nons_collected one_nons_fatal _ _ eq_refl eq_refl)).
  - exact (scripted_run_prefix [shard1_reply; nons_reply]
             [shard3_reply; hostless_reply] false).
  - exact (scripted_run [shard3_reply; hostless_reply] true).
  - constructor; [|constructor]. intros _. discriminate.
Defined.

End ScriptedMoreFacts.

(** * Document and MutableDocument: copy on write *)

Module DocumentFacts.
Import DocumentModel.

Section Facts.
Context `{StorageOps}.

(** ** The heap *)

Lemma upd_same a o m : upd a o m a = o.
Proof. unfold upd. now rewrite Nat.eqb_refl. Qed.

Lemma upd_other a o m x : x <> a -> upd a o m x = m x.
Proof. intros Hne. unfold upd. now apply Nat.eqb_neq in Hne as ->. Qed.

Lemma refs_md_other a md md' docs :
  md <> Some a -> md' <> Some a -> refs a md docs = refs a md' docs.
Proof.
  intros H1 H2. unfold refs.
  destruct (Ptr_eq_dec md (Some a)), (Ptr_eq_dec md' (Some a)); congruence.
Qed.

Lemma refs_here a docs : refs a (Some a) docs = S (count_occ Ptr_eq_dec docs (Some a)).
Proof. unfold refs. destruct (Ptr_eq_dec (Some a) (Some a)); [reflexivity | congruence]. Qed.

Lemma refs_away a md docs :
  md <> Some a -> refs a md docs = count_occ Ptr_eq_dec docs (Some a).
Proof. intros Hne. unfold refs. destruct (Ptr_eq_dec md (Some a)); [congruence | reflexivity]. Qed.

Lemma refs_cons_same a md docs : refs a md (Some a :: docs) = S (refs a md docs).
Proof.
  unfold refs. rewrite count_occ_cons_eq by reflexivity.
  destruct (Ptr_eq_dec md (Some a)); lia.
Qed.

Lemma refs_cons_other a md d docs :
  d <> Some a -> refs a md (d :: docs) = refs a md docs.
Proof.
  intros Hne. unfold refs. now rewrite count_occ_cons_neq by exact Hne.
Qed.

Lemma counted_allocated h md docs a o :
  counted h md docs -> objs h a = Some o ->
  a < fresh h /\ count o = refs a md docs /\ 0 < count o.
Proof.
  intros [Hf Hc] Ho. specialize (Hc a). rewrite Ho in Hc. split; [|exact Hc].
  destruct (Nat.lt_ge_cases a (fresh h)) as [Hlt|Hge]; [exact Hlt|].
  rewrite (Hf a Hge) in Ho. discriminate.
Qed.

Lemma counted_referred h md docs a :
  counted h md docs -> 0 < refs a md docs ->
  exists o, objs h a = Some o /\ count o = refs a md docs /\ a < fresh h.
Proof.
  intros Hw Hr. pose proof (proj2 Hw a) as Hc.
  destruct (objs h a) as [o|] eqn:Ho; [|lia].
  exists o. destruct (counted_allocated h md docs a o Hw Ho) as (Hlt & Hcnt & _).
  auto.
Qed.

Lemma counted_fresh_unreferred h md docs :
  counted h md docs -> refs (fresh h) md docs = 0.
Proof.
  intros [Hf Hc]. specialize (Hc (fresh h)). now rewrite (Hf _ (le_n _)) in Hc.
Qed.

Lemma refs_zero a md docs :
  refs a md docs = 0 -> md <> Some a /\ ~ In (Some a) docs.
Proof.
  unfold refs. destruct (Ptr_eq_dec md (Some a)); [discriminate|].
  intros Hc. split; [assumption|]. now apply count_occ_not_In in Hc.
Qed.

(** ** The counts stay right *)

(** Taking one more reference to an object referred to. *)
Lemma counted_add_ref h md docs a :
  counted h md docs -> In (Some a) docs \/ md = Some a ->
  counted (intrusive_ptr_add_ref a h) md (Some a :: docs).
Proof.
  intros Hw Hin.
  assert (Hr : 0 < refs a md docs).
  { destruct Hin as [Hin | ->]; [|rewrite refs_here; lia].
    unfold refs. apply (count_occ_In Ptr_eq_dec) in Hin. lia. }
  destruct (counted_referred h md docs a Hw Hr) as (o & Ho & Hcnt & Hlt).
  unfold intrusive_ptr_add_ref. rewrite Ho. split; simpl.
  - intros x Hx. rewrite upd_other by lia. now apply (proj1 Hw).
  - intros x. destruct (Nat.eq_dec x a) as [->|Hne].
    + rewrite upd_same. simpl. rewrite refs_cons_same. lia.
    + rewrite upd_other by exact Hne. rewrite refs_cons_other by congruence.
      apply (proj2 Hw).
Qed.

(** Giving up the reference a Document holds. *)
Lemma counted_release_doc h md docs d :
  counted h md (d :: docs) -> counted (Document_destroy d h) md docs.
Proof.
  intros Hw. destruct d as [a|]; simpl.
  - assert (Hr : 0 < refs a md (Some a :: docs)) by (rewrite refs_cons_same; lia).
    destruct (counted_referred h md _ a Hw Hr) as (o & Ho & Hcnt & Hlt).
    rewrite refs_cons_same in Hcnt.
    unfold intrusive_ptr_release. rewrite Ho.
    destruct (count o) as [|[|n]] eqn:Hn; [discriminate| |]; split; simpl.
    + intros x Hx. destruct (Nat.eq_dec x a) as [->|Hne];
        [now rewrite upd_same | rewrite upd_other by exact Hne; now apply (proj1 Hw)].
    + intros x. destruct (Nat.eq_dec x a) as [->|Hne].
      * rewrite upd_same. lia.
      * rewrite upd_other by exact Hne. pose proof (proj2 Hw x) as Hx.
        now rewrite refs_cons_other in Hx by congruence.
    + intros x Hx. rewrite upd_other by lia. now apply (proj1 Hw).
    + intros x. destruct (Nat.eq_dec x a) as [->|Hne].
      * rewrite upd_same. simpl. lia.
      * rewrite upd_other by exact Hne. pose proof (proj2 Hw x) as Hx.
        now rewrite refs_cons_other in Hx by congruence.
  - split; [apply Hw|]. intros x. pose proof (proj2 Hw x) as Hx.
    now rewrite refs_cons_other in Hx by discriminate.
Qed.

(** A reference moves between the MutableDocument and a Document. *)
Lemma refs_move a md docs : refs a md docs = refs a None (md :: docs).
Proof.
  unfold refs. destruct (Ptr_eq_dec None (Some a)) as [Hn|_]; [discriminate|].
  destruct (Ptr_eq_dec md (Some a)) as [->|Hne].
  - now rewrite count_occ_cons_eq.
  - now rewrite count_occ_cons_neq.
Qed.

Lemma counted_move h md docs : counted h md docs <-> counted h None (md :: docs).
Proof.
  unfold counted. split; intros [Hf Hc]; (split; [exact Hf|]); intros a;
    specialize (Hc a); [rewrite <- refs_move | rewrite refs_move]; exact Hc.
Qed.

Lemma counted_swap h md d docs : counted h md (d :: docs) <-> counted h d (md :: docs).
Proof.
  assert (Hr : forall a, refs a md (d :: docs) = refs a d (md :: docs)).
  { intros a. unfold refs.
    destruct (Ptr_eq_dec md (Some a)) as [->|Hm], (Ptr_eq_dec d (Some a)) as [->|Hd];
      repeat first [ rewrite count_occ_cons_eq by reflexivity
                   | rewrite count_occ_cons_neq by assumption ];
      simpl; reflexivity. }
  unfold counted. split; intros [Hf Hc]; (split; [exact Hf|]); intros a;
    specialize (Hc a); [rewrite <- Hr | rewrite Hr]; exact Hc.
Qed.

Lemma counted_write_at h md docs a f :
  counted h md docs -> counted (write_at a f h) md docs.
Proof.
  intros Hw. unfold write_at. destruct (objs h a) as [o|] eqn:Ho; [|exact Hw].
  destruct (counted_allocated h md docs a o Hw Ho) as (Hlt & Hcnt & Hpos).
  split; simpl.
  - intros x Hx. rewrite upd_other by lia. now apply (proj1 Hw).
  - intros x. destruct (Nat.eq_dec x a) as [->|Hne].
    + rewrite upd_same. simpl. auto.
    + rewrite upd_other by exact Hne. apply (proj2 Hw).
Qed.

(** A new object, referred to by a new Document. *)
Lemma counted_alloc h md docs s :
  counted h md docs ->
  counted (intrusive_ptr_add_ref (fst (alloc s h)) (snd (alloc s h))) md
    (Some (fresh h) :: docs).
Proof.
  intros Hw. pose proof (counted_fresh_unreferred h md docs Hw) as Hz.
  unfold alloc, intrusive_ptr_add_ref. simpl. rewrite upd_same. split; simpl.
  - intros x Hx. rewrite !upd_other by lia. apply (proj1 Hw). lia.
  - intros x. destruct (Nat.eq_dec x (fresh h)) as [->|Hne].
    + rewrite upd_same. simpl. rewrite refs_cons_same, Hz. lia.
    + rewrite !upd_other by exact Hne. rewrite refs_cons_other by congruence.
      apply (proj2 Hw).
Qed.

Lemma counted_null h md docs : counted h md docs <-> counted h md (None :: docs).
Proof.
  unfold counted. split; intros [Hf Hc]; (split; [exact Hf|]); intros a;
    specialize (Hc a);
    [rewrite refs_cons_other by discriminate
    | rewrite refs_cons_other in Hc by discriminate]; exact Hc.
Qed.

Lemma counted_of_ptr h md docs p :
  counted h md docs -> In p docs \/ md = p ->
  counted (snd (Document_of_ptr p h)) md (fst (Document_of_ptr p h) :: docs).
Proof.
  intros Hw Hin. destruct p as [a|]; simpl.
  - apply counted_add_ref; [exact Hw | destruct Hin; auto].
  - now apply counted_null.
Qed.

Lemma counted_storage h md docs :
  counted h md docs -> counted (snd (storage md h)) (fst (storage md h)) docs.
Proof.
  intros Hw. unfold storage. destruct md as [a|].
  - destruct (isShared a h); [|exact Hw].
    unfold clonedStorage, reset_ptr.
    pose proof (counted_alloc h (Some a) docs (ds_clone (Document_storage h (Some a))) Hw)
      as Hc.
    destruct (alloc _ h) as [b h1] eqn:Ha. simpl in *.
    assert (b = fresh h) by (unfold alloc in Ha; congruence). subst b.
    apply (proj1 (counted_swap _ (Some a) (Some (fresh h)) docs)) in Hc.
    apply (counted_release_doc _ _ _ (Some a) Hc).
  - unfold newStorage, reset_ptr.
    pose proof (counted_alloc h None docs ds_new Hw) as Hc.
    destruct (alloc _ h) as [b h1] eqn:Ha. simpl in *.
    assert (b = fresh h) by (unfold alloc in Ha; congruence). subst b.
    exact (proj2 (counted_move _ (Some (fresh h)) docs) Hc).
Qed.

Lemma counted_write h md docs f :
  counted h md docs -> counted (snd (write f md h)) (fst (write f md h)) docs.
Proof.
  intros Hw. unfold write. pose proof (counted_storage h md docs Hw) as Hs.
  destruct (storage md h) as [[a|] h1]; simpl in *; [|exact Hs].
  now apply counted_write_at.
Qed.

Lemma counted_clone h md docs d :
  counted h md docs ->
  counted (snd (Document_clone d h)) md (fst (Document_clone d h) :: docs).
Proof.
  intros Hw. unfold Document_clone.
  pose proof (counted_alloc h md docs (ds_clone (Document_storage h d)) Hw) as Hc.
  destruct (alloc _ h) as [b h1] eqn:Ha. simpl in *.
  assert (b = fresh h) by (unfold alloc in Ha; congruence). subst b.
  pose proof (counted_add_ref _ md _ (fresh h) Hc (or_introl (in_eq _ _))) as Hc2.
  apply (counted_release_doc _ _ _ (Some (fresh h)) Hc2).
Qed.

(** The counts stay exact.  In a heap whose objects are exactly those
    referred to by the MutableDocument and by the Documents alive, each with
    as many references as its count says, every operation of the header
    leaves such a heap: writes (which may make a new storage or a copy),
    [peek], [freeze], [reset], the destructors, copies and [clone].  No
    storage is lost while referred to, none is kept once it is not. *)
Theorem reference_counts_stay_exact :
  forall h md docs,
    counted h md docs ->
    (forall f, counted (snd (write f md h)) (fst (write f md h)) docs) /\
    counted (snd (peek md h)) md (fst (peek md h) :: docs) /\
    counted (snd (freeze md h)) (snd (fst (freeze md h)))
      (fst (fst (freeze md h)) :: docs) /\
    counted (MutableDocument_dtor md h) None docs /\
    (forall d, In d docs ->
       counted (snd (Document_copy d h)) md (fst (Document_copy d h) :: docs)) /\
    (forall d,
       counted (snd (Document_clone d h)) md (fst (Document_clone d h) :: docs)) /\
    (forall d docs', docs = d :: docs' ->
       counted (Document_destroy d h) md docs' /\
       counted (snd (reset d md h)) (fst (reset d md h)) docs').
Proof.
  intros h md docs Hw.
  refine (conj _ (conj _ (conj _ (conj _ (conj _ (conj _ _)))))).
  - intros f. now apply counted_write.
  - apply counted_of_ptr; auto.
  - exact (proj1 (counted_move h md docs) Hw).
  - apply (counted_release_doc h None docs md).
    exact (proj1 (counted_move h md docs) Hw).
  - intros d Hin. apply counted_of_ptr; [exact Hw | left; assumption].
  - intros d. now apply counted_clone.
  - intros d docs' ->. split.
    + now apply counted_release_doc.
    + apply (proj1 (counted_swap h md d docs')) in Hw.
      apply (counted_release_doc h d docs' md Hw).
Qed.

(** ** What a Document reads *)

Lemma storage_add_ref h a d :
  Document_storage (intrusive_ptr_add_ref a h) d = Document_storage h d.
Proof.
  unfold intrusive_ptr_add_ref. destruct (objs h a) as [o|] eqn:Ho; [|reflexivity].
  destruct d as [x|]; [|reflexivity]. simpl.
  destruct (Nat.eq_dec x a) as [->|Hne].
  - now rewrite upd_same, Ho.
  - now rewrite upd_other.
Qed.

Lemma referred_allocated h md docs d x :
  counted h md docs -> In d docs \/ md = d -> d = Some x ->
  exists o, objs h x = Some o /\ count o = refs x md docs /\ x < fresh h /\
            0 < refs x md docs.
Proof.
  intros Hw Hin ->.
  assert (Hr : 0 < refs x md docs).
  { destruct Hin as [Hin | ->]; [|rewrite refs_here; lia].
    unfold refs. apply (count_occ_In Ptr_eq_dec) in Hin. lia. }
  destruct (counted_referred h md docs x Hw Hr) as (o & Ho & Hc & Hlt).
  exists o. auto.
Qed.

Lemma storage_destroy h md docs d0 d :
  counted h md (d0 :: docs) -> In d docs \/ md = d ->
  Document_storage (Document_destroy d0 h) d = Document_storage h d.
Proof.
  intros Hw Hin. destruct d0 as [a|]; [|reflexivity].
  destruct d as [x|]; [|reflexivity]. simpl.
  destruct (Nat.eq_dec x a) as [->|Hne].
  - assert (Hin' : In (Some a) (Some a :: docs) \/ md = Some a)
      by (destruct Hin; [left; now right | now right]).
    destruct (referred_allocated h md _ _ a Hw Hin' eq_refl) as (o & Ho & Hc & _).
    assert (Hr : 0 < refs a md docs).
    { destruct Hin as [Hin | ->]; [|rewrite refs_here; lia].
      unfold refs. apply (count_occ_In Ptr_eq_dec) in Hin. lia. }
    rewrite refs_cons_same in Hc.
    unfold intrusive_ptr_release. rewrite Ho.
    destruct (count o) as [|[|n]]; try lia. simpl. now rewrite upd_same.
  - unfold intrusive_ptr_release. destruct (objs h a) as [o|]; [|reflexivity].
    destruct (count o) as [|[|n]]; simpl; now rewrite upd_other.
Qed.

Lemma storage_alloc h md docs s d :
  counted h md docs -> In d docs \/ md = d ->
  Document_storage (snd (alloc s h)) d = Document_storage h d.
Proof.
  intros Hw Hin. destruct d as [x|]; [|reflexivity].
  destruct (referred_allocated h md docs _ x Hw Hin eq_refl) as (o & Ho & _ & Hlt & _).
  simpl. rewrite upd_other by lia. reflexivity.
Qed.

Lemma storage_write_at h a f d :
  d <> Some a -> Document_storage (write_at a f h) d = Document_storage h d.
Proof.
  intros Hne. unfold write_at. destruct (objs h a) as [o|]; [|reflexivity].
  destruct d as [x|]; [|reflexivity]. simpl.
  rewrite upd_other by congruence. reflexivity.
Qed.

Lemma storage_write_at_here h a f o :
  objs h a = Some o -> Document_storage (write_at a f h) (Some a) = f (contents o).
Proof.
  intros Ho. unfold write_at. rewrite Ho. simpl. now rewrite upd_same.
Qed.

Lemma isShared_iff h a docs :
  counted h (Some a) docs -> isShared a h = true <-> In (Some a) docs.
Proof.
  intros Hw.
  destruct (referred_allocated h (Some a) docs _ a Hw (or_intror eq_refl) eq_refl)
    as (o & Ho & Hc & _).
  unfold isShared. rewrite Ho, Nat.ltb_lt, Hc, refs_here.
  rewrite (count_occ_In Ptr_eq_dec). lia.
Qed.

(** What [storage()] hands over: a storage no Document refers to, holding
    what the MutableDocument held, and apart from it the Documents read what
    they read. *)
Lemma storage_result h md docs :
  counted h md docs ->
  exists m o,
    fst (storage md h) = Some m /\
    objs (snd (storage md h)) m = Some o /\
    ~ In (Some m) docs /\
    contents o =
      match md with
      | None => ds_new
      | Some a => if isShared a h then ds_clone (Document_storage h md)
                  else Document_storage h md
      end /\
    (forall d, In d docs ->
       Document_storage (snd (storage md h)) d = Document_storage h d).
Proof.
  intros Hw. pose proof (counted_fresh_unreferred h md docs Hw) as Hz.
  apply refs_zero in Hz as [_ Hfresh].
  unfold storage. destruct md as [a|].
  - destruct (isShared a h) eqn:Hsh.
    + set (s := ds_clone (Document_storage h (Some a))).
      set (h2 := intrusive_ptr_add_ref (fresh h) (snd (alloc s h))).
      change (clonedStorage (Some a) h)
        with (Some (fresh h), Document_destroy (Some a) h2).
      pose proof (counted_alloc h (Some a) docs s Hw) as Hc. fold h2 in Hc.
      apply (proj1 (counted_swap _ (Some a) (Some (fresh h)) docs)) in Hc.
      destruct (referred_allocated h (Some a) docs _ a Hw (or_intror eq_refl) eq_refl)
        as (oa & Hoa & _ & Hlt & _).
      assert (Hnew : objs (Document_destroy (Some a) h2) (fresh h)
                     = Some (mkRefCounted 1 s)).
      { unfold h2, Document_destroy, intrusive_ptr_release, intrusive_ptr_add_ref, alloc.
        simpl. rewrite upd_same. simpl. rewrite upd_other by lia.
        rewrite upd_other by lia.
        rewrite Hoa. destruct (count oa) as [|[|n]]; simpl;
          rewrite upd_other by lia; now rewrite upd_same. }
      exists (fresh h), (mkRefCounted 1 s). cbn [fst snd].
      refine (conj eq_refl (conj Hnew (conj Hfresh (conj eq_refl _)))).
      intros d Hd.
      rewrite (storage_destroy h2 (Some (fresh h)) docs (Some a) d Hc (or_introl Hd)).
      unfold h2. rewrite storage_add_ref.
      apply (storage_alloc h (Some a) docs s d Hw (or_introl Hd)).
    + destruct (referred_allocated h (Some a) docs _ a Hw (or_intror eq_refl) eq_refl)
        as (oa & Hoa & _).
      exists a, oa. simpl. rewrite Hoa. repeat split; auto.
      intros Hin. apply (isShared_iff h a docs Hw) in Hin. congruence.
  - unfold newStorage, reset_ptr. simpl.
    exists (fresh h), (mkRefCounted 1 ds_new). repeat split; auto.
    + unfold intrusive_ptr_add_ref. simpl. rewrite upd_same. simpl.
      now rewrite upd_same.
    + intros d Hd. rewrite storage_add_ref.
      apply (storage_alloc h None docs ds_new d Hw (or_introl Hd)).
Qed.

(** What [write] does: the storage written to is the one [storage()] hands
    over. *)
Lemma write_result h md docs f :
  counted h md docs ->
  exists m,
    fst (write f md h) = Some m /\ ~ In (Some m) docs /\
    Document_storage (snd (write f md h)) (Some m) =
      f (match md with
         | None => ds_new
         | Some a => if isShared a h then ds_clone (Document_storage h md)
                     else Document_storage h md
         end) /\
    (forall d, In d docs ->
       Document_storage (snd (write f md h)) d = Document_storage h d).
Proof.
  intros Hw. destruct (storage_result h md docs Hw) as (m & o & Hm & Ho & Hnin & Hc & Hd).
  unfold write. destruct (storage md h) as [md1 h1]. cbn [fst snd] in *. subst md1.
  exists m. cbv beta iota. cbn [fst snd].
  refine (conj eq_refl (conj Hnin (conj _ _))).
  - rewrite (storage_write_at_here h1 m f o Ho). now rewrite Hc.
  - intros d Hin. rewrite storage_write_at; [now apply Hd|].
    intros ->. contradiction.
Qed.

(** The data in a Document is immutable.  Whatever is done through the
    MutableDocument (a write of any kind, be it the first, one on a storage
    shared with Documents or one on its own storage; [peek]; [reset];
    its destruction), every Document alive reads after it the storage it read
    before. *)
Theorem documents_never_change :
  forall h md docs d,
    counted h md docs -> In d docs ->
    (forall f, Document_storage (snd (write f md h)) d = Document_storage h d) /\
    Document_storage (snd (peek md h)) d = Document_storage h d /\
    Document_storage (MutableDocument_dtor md h) d = Document_storage h d /\
    (forall d0 docs', docs = d0 :: docs' -> In d docs' ->
       Document_storage (snd (reset d0 md h)) d = Document_storage h d).
Proof.
  intros h md docs d Hw Hin.
  refine (conj _ (conj _ (conj _ _))).
  - intros f. destruct (write_result h md docs f Hw) as (m & _ & _ & _ & Hd).
    now apply Hd.
  - unfold peek, Document_of_ptr. destruct md as [a|]; [|reflexivity].
    apply storage_add_ref.
  - apply (storage_destroy h None docs md d); [|left; exact Hin].
    exact (proj1 (counted_move h md docs) Hw).
  - intros d0 docs' -> Hin'.
    apply (storage_destroy h d0 docs' md d); [|left; exact Hin'].
    exact (proj1 (counted_swap h md d0 docs') Hw).
Qed.

(** A Document got by [peek] does not see what is written afterwards: the
    write goes to a copy of the storage (to a new storage when there was
    none), which the MutableDocument then holds, and the Document reads what
    the MutableDocument held at the time of the [peek]. *)
Theorem peek_does_not_see_later_writes :
  forall h md docs f,
    counted h md docs ->
    let d := fst (peek md h) in
    let h1 := snd (peek md h) in
    let md2 := fst (write f md h1) in
    let h2 := snd (write f md h1) in
    Document_storage h2 d = Document_storage h md /\
    Document_storage h2 md2 =
      f (match md with
         | None => ds_new
         | Some _ => ds_clone (Document_storage h md)
         end) /\
    md2 <> d.
Proof.
  intros h md docs f Hw d h1 md2 h2.
  assert (Hw1 : counted h1 md (d :: docs))
    by (apply counted_of_ptr; auto).
  assert (Hd : d = md) by (subst d; unfold peek; now destruct md).
  assert (Hh1 : forall x, Document_storage h1 x = Document_storage h x).
  { intros x. subst h1. unfold peek, Document_of_ptr. destruct md as [a|]; [|reflexivity].
    apply storage_add_ref. }
  destruct (write_result h1 md (d :: docs) f Hw1) as (m & Hm & Hnin & Hc & Hkeep).
  fold md2 in Hm. fold h2 in Hc, Hkeep.
  refine (conj _ (conj _ _)).
  - rewrite (Hkeep d (in_eq _ _)), Hh1. now rewrite Hd.
  - rewrite Hm, Hc. destruct md as [a|]; [|reflexivity].
    assert (Hsh : isShared a h1 = true).
    { apply (isShared_iff h1 a (d :: docs) Hw1). left. exact Hd. }
    now rewrite Hsh, Hh1.
  - rewrite Hm. intros <-. apply Hnin. now left.
Qed.

(** [freeze] hands the storage over as it is, without a copy, and leaves the
    MutableDocument with none: a [peek] gives the empty Document, and a later
    write starts from a new storage and does not reach the Document
    returned. *)
Theorem freeze_releases_the_storage :
  forall h md docs f,
    counted h md docs ->
    let d := fst (fst (freeze md h)) in
    let md1 := snd (fst (freeze md h)) in
    let h1 := snd (freeze md h) in
    h1 = h /\ d = md /\
    Document_empty h1 (fst (peek md1 h1)) = true /\
    Document_storage (snd (write f md1 h1)) d = Document_storage h md /\
    Document_storage (snd (write f md1 h1)) (fst (write f md1 h1)) = f ds_new /\
    fst (write f md1 h1) <> d.
Proof.
  intros h md docs f Hw d md1 h1.
  assert (Hw1 : counted h None (md :: docs))
    by exact (proj1 (counted_move h md docs) Hw).
  destruct (write_result h None (md :: docs) f Hw1) as (m & Hm & Hnin & Hc & Hkeep).
  subst d md1 h1. cbn [freeze fst snd].
  refine (conj eq_refl (conj eq_refl (conj eq_refl (conj _ (conj _ _))))).
  - apply Hkeep. now left.
  - now rewrite Hm, Hc.
  - rewrite Hm. intros <-. apply Hnin. now left.
Qed.

(** A write copies the storage exactly when a Document alive shares it:
    alone on its storage the MutableDocument writes in place, at the same
    address and without a new object; sharing it, it moves to a new object
    and the shared one keeps its contents. *)
Theorem write_copies_only_when_shared :
  forall h a docs f,
    counted h (Some a) docs ->
    (~ In (Some a) docs -> write f (Some a) h = (Some a, write_at a f h)) /\
    (In (Some a) docs ->
       fst (write f (Some a) h) = Some (fresh h) /\
       fresh (snd (write f (Some a) h)) = S (fresh h) /\
       Document_storage (snd (write f (Some a) h)) (Some a) =
         Document_storage h (Some a)).
Proof.
  intros h a docs f Hw. pose proof (isShared_iff h a docs Hw) as Hsh. split.
  - intros Hnin. unfold write, storage.
    destruct (isShared a h); [exfalso; apply Hnin, Hsh; reflexivity | reflexivity].
  - intros Hin. pose proof (proj2 Hsh Hin) as Hs.
    destruct (write_result h (Some a) docs f Hw) as (m & _ & _ & _ & Hkeep).
    refine (conj _ (conj _ (Hkeep _ Hin))).
    + unfold write, storage. rewrite Hs. reflexivity.
    + unfold write, storage. rewrite Hs.
      unfold clonedStorage, reset_ptr, alloc, intrusive_ptr_add_ref. cbn [fst snd objs fresh].
      rewrite upd_same. cbn [fst snd].
      unfold write_at, intrusive_ptr_release. cbn [objs fresh].
      repeat match goal with
             | |- context [match ?x with _ => _ end] => destruct x; cbn [objs fresh]
             end; reflexivity.
Qed.

(** ** DOC and DOC_ARRAY *)




Lemma pushes vals : forall array,
  fold_left ValueArrayStream_put vals array = array ++ vals.
Proof.
  induction vals as [|v vals IH]; intros array; simpl.
  - now rewrite app_nil_r.
  - rewrite IH. unfold ValueArrayStream_put. now rewrite <- app_assoc.
Qed.

(** [DOC_ARRAY] makes the array of the values streamed, each once and in the
    order written. *)
Theorem DOC_ARRAY_keeps_order :
  forall vals, DOC_ARRAY vals = Value_of_array vals.
Proof. intros vals. unfold DOC_ARRAY. now rewrite pushes. Qed.

End Facts.

End DocumentFacts.

(** * Documents on the small instance *)

Module DocumentRuns.
Import DocumentModel ListDocuments DocumentFacts.
Local Open Scope string_scope.
Local Open Scope Z_scope.
Local Open Scope list_scope.

Lemma counted_no_heap : counted no_heap None [].
Proof.
  split; [reflexivity|]. intros a. simpl. unfold refs. simpl.
  now destruct (Ptr_eq_dec None (Some a)).
Qed.

Lemma counted_one_field : counted (snd one_field) (Some 0%nat) [].
Proof.
  exact (@counted_write ops no_heap None [] (ds_appendField "a" (VInt 1))
           counted_no_heap).
Qed.

Lemma counted_one_field_peeked :
  counted (snd (peek (Some 0%nat) (snd one_field))) (Some 0%nat)
    [fst (peek (Some 0%nat) (snd one_field))].
Proof.
  exact (@counted_of_ptr ops (snd one_field) (Some 0%nat) [] (Some 0%nat)
           counted_one_field (or_intror eq_refl)).
Qed.

Lemma reference_counts_stay_exact_witness :
  counted (snd (peek (Some 0%nat) (snd one_field))) (Some 0%nat)
    [fst (peek (Some 0%nat) (snd one_field))].
Proof.
  exact (proj1 (proj2 (@reference_counts_stay_exact ops (snd one_field)
                         (Some 0%nat) [] counted_one_field))).
Defined.

Lemma documents_never_change_witness :
  Document_storage
    (snd (addField "b" (VInt 2) (Some 0%nat) (snd (peek (Some 0%nat) (snd one_field)))))
    (Some 0%nat)
  = [("a", VInt 1)].
Proof.
  refine (eq_trans
            (proj1 (@documents_never_change ops
                      (snd (peek (Some 0%nat) (snd one_field))) (Some 0%nat)
                      [Some 0%nat] (Some 0%nat) _ (or_introl eq_refl))
               (ds_appendField "b" (VInt 2)))
            eq_refl).
  exact counted_one_field_peeked.
Defined.

Lemma peek_does_not_see_later_writes_witness :
  Document_storage
    (snd (setField "a" (VInt 5) (Some 0%nat) (snd (peek (Some 0%nat) (snd one_field)))))
    (fst (peek (Some 0%nat) (snd one_field)))
  = [("a", VInt 1)].
Proof.
  exact (proj1 (@peek_does_not_see_later_writes ops (snd one_field) (Some 0%nat) []
                  (ds_assignField "a" (VInt 5)) counted_one_field)).
Defined.

Lemma freeze_releases_the_storage_witness :
  Document_storage
    (snd (addField "b" (VInt 2) None (snd one_field))) (Some 0%nat)
  = [("a", VInt 1)].
Proof.
  exact (proj1 (proj2 (proj2 (proj2
           (@freeze_releases_the_storage ops (snd one_field) (Some 0%nat) []
              (ds_appendField "b" (VInt 2)) counted_one_field))))).
Defined.

Lemma write_copies_only_when_shared_witness :
  addField "b" (VInt 2) (Some 0%nat) (snd one_field)
  = (Some 0%nat, write_at 0 (ds_appendField "b" (VInt 2)) (snd one_field)).
Proof.
  refine (proj1 (@write_copies_only_when_shared ops (snd one_field) 0%nat []
                   (ds_appendField "b" (VInt 2)) counted_one_field) _).
  intros [].
Defined.


End DocumentRuns.
